(** * A RealNVP-style normalizing flow: coupling layers, flow, likelihood model

    Shallow embedding of [assignment_3/templates/a3_nf_template.py] over the
    real numbers.  A torch tensor of shape (B, D) is a list of B rows, each a
    list of D reals; a tensor of shape (B,) is a list of B reals; the mask, of
    shape (1, D), is one row that broadcasts over the batch.  Elementwise
    operations are written tensor by tensor, in the order of the source.

    Floating point is not modelled: [exp], [ln] and [tanh] are those of the
    real numbers.  Where torch raises on a shape mismatch the embedding
    truncates; the statements carry the shape conditions under which torch
    does not raise. *)

From Stdlib Require Import Reals Lra Lia List Bool Arith ZArith.
Import ListNotations.
Open Scope R_scope.

(** ** Tensors *)

Definition vec := list R.
Definition batch := list vec.

Fixpoint zipWith {A B C : Type} (f : A -> B -> C) (l1 : list A) (l2 : list B)
  : list C :=
  match l1, l2 with
  | a :: l1', b :: l2' => f a b :: zipWith f l1' l2'
  | _, _ => []
  end.

(** Elementwise operations on one row. *)
Definition vadd : vec -> vec -> vec := zipWith Rplus.
Definition vsub : vec -> vec -> vec := zipWith Rminus.
Definition vmul : vec -> vec -> vec := zipWith Rmult.
Definition vsum (v : vec) : R := fold_right Rplus 0 v.

(** Elementwise operations on a (B, D) tensor. *)
Definition bmap (f : R -> R) (z : batch) : batch := map (map f) z.
Definition badd : batch -> batch -> batch := zipWith vadd.
Definition bsub : batch -> batch -> batch := zipWith vsub.
Definition bmul : batch -> batch -> batch := zipWith vmul.

(** [m * z] for [m] of shape (1, D) and [z] of shape (B, D). *)
Definition row_mul (m : vec) (z : batch) : batch := map (vmul m) z.

(** [torch.sum(z, dim=1)]. *)
Definition sum_dim1 (z : batch) : list R := map vsum z.

(** [torch.zeros(n)]. *)
Definition zeros (n : nat) : list R := repeat 0 n.

(** [np.prod(z.size()[1:])] for a two-dimensional tensor: its width. *)
Definition width (z : batch) : nat :=
  match z with
  | [] => 0%nat
  | r :: _ => length r
  end.

Definition batch_shape (D : nat) (z : batch) : Prop :=
  Forall (fun r => length r = D) z.

Definition binary (m : vec) : Prop := Forall (fun x => x = 0 \/ x = 1) m.

(** ** log_prior *)

Definition log_prior (x : batch) : list R :=
  sum_dim1 (bmap (fun v => - 0.5 * ln (2 * PI) - 0.5 * v ^ 2) x).

(** ** get_mask *)

Definition get_mask : vec :=
  flat_map
    (fun i => map (fun j => if ((i + j) mod 2 =? 0)%nat then 1 else 0)
                  (seq 0 28))
    (seq 0 28).

(** ** The network of a coupling layer *)

(** [nn.Linear]: [weight] has one row per output feature. *)
Record Linear := mkLinear { weight : list vec; bias : vec }.

Definition dot (a b : vec) : R := vsum (vmul a b).

Definition Linear_forward (l : Linear) (x : vec) : vec :=
  zipWith (fun row b => dot x row + b) (weight l) (bias l).

Definition ReLU (x : vec) : vec := map (Rmax 0) x.

Definition Linear_shape (n_in n_out : nat) (l : Linear) : Prop :=
  length (weight l) = n_out /\
  Forall (fun row => length row = n_in) (weight l) /\
  length (bias l) = n_out.

(** ** Coupling *)

Record Coupling := mkCoupling {
  n_hidden : nat;
  c_in : nat;
  mask : vec;
  nn_0 : Linear;
  nn_2 : Linear;
  nn_4 : Linear
}.

(** [self.nn], applied to one row. *)
Definition nn_row (c : Coupling) (x : vec) : vec :=
  Linear_forward (nn_4 c)
    (ReLU (Linear_forward (nn_2 c) (ReLU (Linear_forward (nn_0 c) x)))).

Definition nn (c : Coupling) (x : batch) : batch := map (nn_row c) x.

(** [Coupling.__init__]: [l0] and [l2] are the first two linear layers as torch
    initialises them; the last layer is zeroed. *)
Definition Coupling_init (c_in : nat) (mask : vec) (n_hidden : nat)
    (l0 l2 : Linear) : Coupling :=
  {| n_hidden := n_hidden;
     c_in := c_in;
     mask := mask;
     nn_0 := l0;
     nn_2 := l2;
     nn_4 := {| weight := repeat (repeat 0 n_hidden) (2 * c_in);
                bias := repeat 0 (2 * c_in) |} |}.

Definition Coupling_wf (c : Coupling) : Prop :=
  length (mask c) = c_in c /\
  Linear_shape (c_in c) (n_hidden c) (nn_0 c) /\
  Linear_shape (n_hidden c) (n_hidden c) (nn_2 c) /\
  Linear_shape (n_hidden c) (2 * c_in c) (nn_4 c).

Definition one_minus (m : vec) : vec := map (fun x => 1 - x) m.

(** [Coupling.forward].  [.split(self.c_in, dim=1)] of a tensor of width
    [2 * c_in] yields the first [c_in] columns and the remaining ones. *)
Definition Coupling_forward (c : Coupling) (z : batch) (ldj : list R)
    (reverse : bool) : batch * list R :=
  let out := nn c (row_mul (mask c) z) in
  let h := map (firstn (c_in c)) out in
  let t := map (skipn (c_in c)) out in
  let log_scale := bmap tanh h in
  if negb reverse then
    let z' := badd (row_mul (mask c) z)
                   (row_mul (one_minus (mask c))
                            (badd (bmul z (bmap exp log_scale)) t)) in
    let ldj' := zipWith Rplus ldj
                  (sum_dim1 (row_mul (one_minus (mask c)) log_scale)) in
    (z', ldj')
  else
    let z' := badd (row_mul (mask c) z)
                   (bmul (row_mul (one_minus (mask c)) (bsub z t))
                         (bmap exp (bmap Ropp log_scale))) in
    (z', ldj).

(** ** Flow *)

Record Flow := mkFlow { layers : list Coupling; z_shape : nat }.

(** [Flow.__init__]: [init k] gives the torch-initialised layers of the k-th
    coupling layer. *)
Definition Flow_init (channels n_flows : nat) (init : nat -> Linear * Linear)
  : Flow :=
  let mask := get_mask in
  {| layers :=
       flat_map
         (fun i =>
            [ Coupling_init channels mask 1024
                (fst (init (2 * i)%nat)) (snd (init (2 * i)%nat));
              Coupling_init channels (one_minus mask) 1024
                (fst (init (2 * i + 1)%nat)) (snd (init (2 * i + 1)%nat)) ])
         (seq 0 n_flows);
     z_shape := channels |}.

Definition Flow_forward (f : Flow) (z : batch) (logdet : list R)
    (reverse : bool) : batch * list R :=
  if negb reverse then
    fold_left (fun s layer => Coupling_forward layer (fst s) (snd s) false)
              (layers f) (z, logdet)
  else
    fold_left (fun s layer => Coupling_forward layer (fst s) (snd s) true)
              (rev (layers f)) (z, logdet).

Definition Flow_wf (D : nat) (f : Flow) : Prop :=
  Forall (fun c => Coupling_wf c /\ c_in c = D /\ binary (mask c)) (layers f).

(** ** The random number generator

    [torch.rand_like] and [torch.randn] read torch's global generator.  The
    generator is modelled as the sequence of uniform draws and the sequence of
    normal draws it will deliver, with the position reached so far. *)

Record generator := mkGen {
  uniform : nat -> R;
  normal : nat -> R;
  cursor : nat
}.

Definition Rand (A : Type) : Type := generator -> A * generator.

Definition ret {A : Type} (a : A) : Rand A := fun g => (a, g).

Definition bind {A B : Type} (m : Rand A) (k : A -> Rand B) : Rand B :=
  fun g => let (a, g') := m g in k a g'.

Notation "x <- m ;; k" := (bind m (fun x => k))
  (at level 61, m at next level, right associativity).

Definition advance (n : nat) (g : generator) : generator :=
  {| uniform := uniform g; normal := normal g; cursor := (cursor g + n)%nat |}.

(** Fill a tensor shaped like [z] with consecutive draws of [src]. *)
Fixpoint draw_like (src : nat -> R) (start : nat) (z : batch) : batch :=
  match z with
  | [] => []
  | r :: z' =>
      map src (seq start (length r)) :: draw_like src (start + length r) z'
  end.

Definition numel (z : batch) : nat :=
  fold_right (fun r n => (length r + n)%nat) 0%nat z.

Definition rand_like (z : batch) : Rand batch :=
  fun g => (draw_like (uniform g) (cursor g) z, advance (numel z) g).

Definition randn (n d : nat) : Rand batch :=
  fun g => let shape := repeat (repeat 0 d) n in
           (draw_like (normal g) (cursor g) shape, advance (numel shape) g).

(** Uniform draws lie in [0, 1). *)
Definition generator_ok (g : generator) : Prop :=
  forall k, 0 <= uniform g k < 1.

(** [sample_prior((n, d))]; moving the tensor to another device does not
    change its values. *)
Definition sample_prior (n d : nat) : Rand batch := randn n d.

(** ** Model *)

Record Model := mkModel { flow : Flow; shape : nat }.

(** [Model.__init__]: [Flow(shape)] with the default [n_flows=4]. *)
Definition Model_init (shape : nat) (init : nat -> Linear * Linear) : Model :=
  {| flow := Flow_init shape 4 init; shape := shape |}.

Definition dequantize (z : batch) : Rand batch :=
  noise <- rand_like z ;; ret (badd z noise).

Definition alpha : R := 1 / 100000.

Definition sigmoid (x : R) : R := 1 / (1 + exp (- x)).

(** The steps of [logit_normalize], in the order of the source. *)

(** "Divide by 256 and update ldj." *)
Definition divide_by_256 (z : batch) (logdet : list R) : batch * list R :=
  let z := bmap (fun v => v / 256) z in
  let logdet := map (fun l => l - ln 256 * INR (width z)) logdet in
  (z, logdet).

Definition alpha_shrink (z : batch) : batch :=
  bmap (fun v => v * (1 - alpha) + alpha * 0.5) z.

(** "Logit normalize" *)
Definition logit_step (z : batch) (logdet : list R) : batch * list R :=
  let z := alpha_shrink z in
  let logdet :=
    zipWith Rplus logdet (sum_dim1 (bmap (fun v => - ln v - ln (1 - v)) z)) in
  let z := bmap (fun v => ln v - ln (1 - v)) z in
  (z, logdet).

(** "Inverse normalize" *)
Definition inverse_logit_step (z : batch) (logdet : list R)
  : batch * list R :=
  let z := bmap sigmoid z in
  let logdet :=
    zipWith Rplus logdet (sum_dim1 (bmap (fun v => ln v + ln (1 - v)) z)) in
  let z := bmap (fun v => (v - alpha * 0.5) / (1 - alpha)) z in
  (z, logdet).

(** "Multiply by 256." *)
Definition multiply_by_256 (z : batch) (logdet : list R) : batch * list R :=
  let logdet := map (fun l => l + ln 256 * INR (width z)) logdet in
  let z := bmap (fun v => v * 256) z in
  (z, logdet).

Definition logit_normalize (z : batch) (logdet : list R) (reverse : bool)
  : batch * list R :=
  if negb reverse then
    let '(z, logdet) := divide_by_256 z logdet in
    logit_step z logdet
  else
    let '(z, logdet) := inverse_logit_step z logdet in
    multiply_by_256 z logdet.

Definition Model_forward (m : Model) (input : batch) : Rand (list R) :=
  let z := input in
  let ldj := zeros (length z) in
  z <- dequantize z ;;
  let '(z, ldj) := logit_normalize z ldj false in
  let '(z, ldj) := Flow_forward (flow m) z ldj false in
  let log_pz := log_prior z in
  let log_px := zipWith Rplus log_pz ldj in
  ret log_px.

Definition Model_sample (m : Model) (n_samples : nat) : Rand batch :=
  z <- sample_prior n_samples (z_shape (flow m)) ;;
  let ldj := zeros (length z) in
  let '(x_hat, ldj) := Flow_forward (flow m) z ldj true in
  let '(x_hat, ldj) := logit_normalize x_hat ldj true in
  ret x_hat.

(** ** Row-level view of a coupling layer

    Every operation of [Coupling.forward] acts on each example on its own;
    these are the functions one row goes through. *)

(** [log_scale] and [t] for one row. *)
Definition log_scale_row (c : Coupling) (z : vec) : vec :=
  map tanh (firstn (c_in c) (nn_row c (vmul (mask c) z))).

Definition t_row (c : Coupling) (z : vec) : vec :=
  skipn (c_in c) (nn_row c (vmul (mask c) z)).

Definition forward_row (c : Coupling) (z : vec) : vec :=
  vadd (vmul (mask c) z)
       (vmul (one_minus (mask c))
             (vadd (vmul z (map exp (log_scale_row c z))) (t_row c z))).

Definition ldj_row (c : Coupling) (z : vec) : R :=
  vsum (vmul (one_minus (mask c)) (log_scale_row c z)).

Definition reverse_row (c : Coupling) (z : vec) : vec :=
  vadd (vmul (mask c) z)
       (vmul (vmul (one_minus (mask c)) (vsub z (t_row c z)))
             (map exp (map Ropp (log_scale_row c z)))).

(** ** Sums over the transformed dimensions *)

Definition is_zero (x : R) : bool := if Req_dec_T x 0 then true else false.

(** The sum of [s] over the dimensions where the mask [m] is 0. *)
Definition sum_where_mask0 (m s : vec) : R :=
  vsum (map snd (filter (fun p => is_zero (fst p)) (combine m s))).

(** One layer of [Flow.forward], in each direction. *)
Definition forward_step (s : batch * list R) (layer : Coupling) :=
  Coupling_forward layer (fst s) (snd s) false.

Definition reverse_step (s : batch * list R) (layer : Coupling) :=
  Coupling_forward layer (fst s) (snd s) true.

(** ** Closed forms of the normalization

    What reverse logit-normalization does to one entry. *)
Definition inverse_logit_closed_form (y : R) : R :=
  256 * (sigmoid y - alpha * 0.5) / (1 - alpha).

(** What a tensor-level step adds to each entry of [logdet]. *)
Definition contribution (after before : list R) : list R :=
  zipWith Rminus after before.

(** Raw pixel values. *)
Definition pixel_range (x : batch) : Prop :=
  Forall (Forall (fun v => 0 <= v <= 255)) x.

(** A layer as [Coupling.__init__] leaves it, for inputs of width [n]. *)
Definition fresh_layer (n : nat) (c : Coupling) : Prop :=
  exists m nh l0 l2, c = Coupling_init n m nh l0 l2 /\ length m = n.

(** ** The change of variables of forward logit-normalization *)

(** An entry after division by 256 and the alpha-shrink. *)
Definition shrunk (v : R) : R := v / 256 * (1 - alpha) + alpha * 0.5.

(** What forward logit-normalization does to one entry. *)
Definition logit_map (v : R) : R := ln (shrunk v) - ln (1 - shrunk v).

(** The derivative of [logit_map]. *)
Definition logit_map_deriv (v : R) : R :=
  (1 - alpha) / 256 * (/ shrunk v + / (1 - shrunk v)).

(** Following the change-of-variables formula the spec appeals to: a map that
    acts entry by entry has a diagonal Jacobian, whose log-determinant is the
    sum of the logarithms of the derivatives at the entries. *)
Definition change_of_variables_ldj (row : vec) : R :=
  vsum (map (fun v => ln (logit_map_deriv v)) row).

(** Following the change-of-variables formula: the log-likelihood of a
    dequantized batch under a model whose flow is the identity, as it is for a
    freshly constructed model. *)
Definition exact_log_px_fresh (x : batch) : list R :=
  map (fun row =>
         vsum (map (fun v => - 0.5 * ln (2 * PI) - 0.5 * logit_map v ^ 2) row)
         + change_of_variables_ldj row)
      x.

(** ** Concrete inputs *)

(** One all-black image. *)
Definition black_image : batch := [repeat 0 784].

(** A generator whose draws are all [u] (uniform) and [a] (normal). *)
Definition constant_generator (u a : R) : generator :=
  {| uniform := fun _ => u; normal := fun _ => a; cursor := 0 |}.

(** A small coupling layer on two dimensions with one hidden unit, the layer
    with the complementary mask, and the flow made of the two. *)
Definition example_coupling : Coupling :=
  {| n_hidden := 1;
     c_in := 2;
     mask := [1; 0];
     nn_0 := {| weight := [[1; 1]]; bias := [0] |};
     nn_2 := {| weight := [[1]]; bias := [0] |};
     nn_4 := {| weight := [[1]; [0]; [1]; [0]]; bias := [0; 0; 0; 0] |} |}.

Definition example_coupling' : Coupling :=
  {| n_hidden := 1;
     c_in := 2;
     mask := one_minus [1; 0];
     nn_0 := {| weight := [[1; 1]]; bias := [0] |};
     nn_2 := {| weight := [[1]]; bias := [0] |};
     nn_4 := {| weight := [[0]; [1]; [0]; [1]]; bias := [0; 0; 0; 0] |} |}.

Definition example_flow : Flow :=
  {| layers := [example_coupling; example_coupling']; z_shape := 2 |}.

Definition example_model : Model := {| flow := example_flow; shape := 2 |}.

Definition example_batch : batch := [[1; 2]; [3; 4]].

Definition example_pixels : batch := [[0; 255]].

(** ** main: when sample grids are saved

    [main] calls [plot_grid(model, n_samples, 0)] before training and
    [plot_grid(model, n_samples, epoch + 1)] after every epoch of
    [range(epochs)] with [epoch % 5 == 0 or epoch == epochs - 1]. *)

Definition plot_condition (epochs epoch : Z) : bool :=
  ((epoch mod 5 =? 0) || (epoch =? epochs - 1))%Z.

(** [range(n)] for a Python int [n]: empty when [n] is not positive. *)
Definition range (n : Z) : list Z := map Z.of_nat (seq 0 (Z.to_nat n)).

(** The numbers [plot_grid] is called with, in the order of the calls; each is
    the number in the name of the image file written.  [epochs] is the int
    that argparse returns, of either sign. *)
Definition plotted_epochs (epochs : Z) : list Z :=
  0%Z :: map (fun epoch => (epoch + 1)%Z)
             (filter (plot_condition epochs) (range epochs)).

(** ** Lists *)

Lemma length_zipWith {A B C : Type} (f : A -> B -> C) l1 l2 :
  length (zipWith f l1 l2) = Nat.min (length l1) (length l2).
Proof.
  revert l2; induction l1 as [|a l1 IH]; intros [|b l2]; simpl; auto.
Qed.

Lemma nth_zipWith {A B C : Type} (f : A -> B -> C) l1 l2 i da db dc :
  (i < length l1)%nat -> (i < length l2)%nat ->
  nth i (zipWith f l1 l2) dc = f (nth i l1 da) (nth i l2 db).
Proof.
  revert l2 i; induction l1 as [|a l1 IH]; intros [|b l2] [|i]; simpl;
    intros H1 H2; try lia; auto.
  apply IH; lia.
Qed.

Lemma nth_map0 (f : R -> R) (l : vec) i :
  (i < length l)%nat -> nth i (map f l) 0 = f (nth i l 0).
Proof.
  intro H. rewrite (nth_indep _ 0 (f 0)) by (rewrite length_map; exact H).
  apply map_nth.
Qed.

Lemma zipWith_map_diag {A B C D : Type} (f : B -> C -> D) (g : A -> B)
    (h : A -> C) (l : list A) :
  zipWith f (map g l) (map h l) = map (fun x => f (g x) (h x)) l.
Proof. induction l; simpl; congruence. Qed.

Lemma zipWith_map_r {A B C : Type} (f : A -> B -> C) (h : A -> B) l :
  zipWith f l (map h l) = map (fun x => f x (h x)) l.
Proof. induction l; simpl; congruence. Qed.

Lemma map_id_in {A : Type} (f : A -> A) (l : list A) :
  Forall (fun x => f x = x) l -> map f l = l.
Proof. induction 1; simpl; congruence. Qed.

Lemma vsum_zero (v : vec) : Forall (fun x => x = 0) v -> vsum v = 0.
Proof. induction 1; simpl; [reflexivity | subst; unfold vsum in *; lra]. Qed.

Lemma zipWith_zeros_r (l : list R) n :
  length l = n -> zipWith Rplus l (repeat 0 n) = l.
Proof.
  revert n; induction l as [|a l IH]; intros [|n] H; simpl in *;
    try discriminate; auto.
  rewrite IH by lia. f_equal. lra.
Qed.

Create Rewrite HintDb veclen.

#[local] Hint Rewrite @length_zipWith @length_map @length_firstn @length_skipn
  @repeat_length : veclen.

Ltac unfold_vec := unfold vadd, vsub, vmul, one_minus, ReLU in *.

Ltac len := unfold_vec; autorewrite with veclen in *; lia.

(** Rewrite [nth i] through the elementwise operations of a row. *)
Ltac nth_step :=
  first
    [ rewrite (nth_zipWith _ _ _ _ 0 0 0) by len
    | rewrite nth_map0 by len ].

Ltac vec_nth := unfold_vec; repeat nth_step.

(** ** Shapes *)

Lemma length_Linear_forward l x n_in n_out :
  Linear_shape n_in n_out l -> length (Linear_forward l x) = n_out.
Proof. intros (Hw & _ & Hb). unfold Linear_forward. len. Qed.

Lemma length_nn_row c x :
  Coupling_wf c -> length (nn_row c x) = (2 * c_in c)%nat.
Proof.
  intros (_ & _ & _ & H4). unfold nn_row.
  eapply length_Linear_forward; eauto.
Qed.

Lemma length_log_scale_row c z :
  Coupling_wf c -> length (log_scale_row c z) = c_in c.
Proof.
  intro H. unfold log_scale_row.
  pose proof (length_nn_row c (vmul (mask c) z) H). len.
Qed.

Lemma length_t_row c z : Coupling_wf c -> length (t_row c z) = c_in c.
Proof.
  intro H. unfold t_row.
  pose proof (length_nn_row c (vmul (mask c) z) H). len.
Qed.

Lemma length_forward_row c z :
  Coupling_wf c -> length z = c_in c -> length (forward_row c z) = c_in c.
Proof.
  intros H Hz. pose proof (length_log_scale_row c z H).
  pose proof (length_t_row c z H). destruct H as (Hm & _).
  unfold forward_row. len.
Qed.

Lemma length_reverse_row c z :
  Coupling_wf c -> length z = c_in c -> length (reverse_row c z) = c_in c.
Proof.
  intros H Hz. pose proof (length_log_scale_row c z H).
  pose proof (length_t_row c z H). destruct H as (Hm & _).
  unfold reverse_row. len.
Qed.

(** ** The tensor-level code acts row by row *)

Lemma Coupling_forward_rows c z ldj :
  Coupling_forward c z ldj false =
  (map (forward_row c) z, zipWith Rplus ldj (map (ldj_row c) z)).
Proof.
  unfold Coupling_forward, nn, row_mul, badd, bmul, bsub, bmap, sum_dim1.
  simpl negb. cbv iota. cbv zeta.
  rewrite !map_map. rewrite zipWith_map_r. rewrite !zipWith_map_diag.
  rewrite !map_map. rewrite zipWith_map_diag. reflexivity.
Qed.

Lemma Coupling_reverse_rows c z ldj :
  Coupling_forward c z ldj true = (map (reverse_row c) z, ldj).
Proof.
  unfold Coupling_forward, nn, row_mul, badd, bmul, bsub, bmap, sum_dim1.
  simpl negb. cbv iota. cbv zeta.
  rewrite !map_map. rewrite zipWith_map_r. rewrite !map_map.
  rewrite !zipWith_map_diag. reflexivity.
Qed.

(** ** One row through a coupling layer and back *)

Lemma binary_nth m i : binary m -> (i < length m)%nat ->
  nth i m 0 = 0 \/ nth i m 0 = 1.
Proof. intros H Hi. exact (proj1 (Forall_nth _ m) H i 0 Hi). Qed.

Lemma exp_cancel_l s : exp s * exp (- s) = 1.
Proof. rewrite <- exp_plus. replace (s + - s) with 0 by lra. apply exp_0. Qed.

(** The masked half of a row passes through the layer unchanged. *)
Lemma masked_forward_row c z :
  Coupling_wf c -> binary (mask c) -> length z = c_in c ->
  vmul (mask c) (forward_row c z) = vmul (mask c) z.
Proof.
  intros Hwf Hb Hz.
  pose proof (length_log_scale_row c z Hwf) as Hs.
  pose proof (length_t_row c z Hwf) as Ht.
  pose proof (length_forward_row c z Hwf Hz) as Hf.
  pose proof (proj1 Hwf) as Hm.
  apply (nth_ext _ _ 0 0); [len|].
  intros i Hi. assert (i < c_in c)%nat as Hi' by len.
  unfold forward_row in *.
  destruct (binary_nth _ i Hb ltac:(lia)) as [E|E]; vec_nth; rewrite E; ring.
Qed.

Lemma masked_reverse_row c z :
  Coupling_wf c -> binary (mask c) -> length z = c_in c ->
  vmul (mask c) (reverse_row c z) = vmul (mask c) z.
Proof.
  intros Hwf Hb Hz.
  pose proof (length_log_scale_row c z Hwf) as Hs.
  pose proof (length_t_row c z Hwf) as Ht.
  pose proof (length_reverse_row c z Hwf Hz) as Hf.
  pose proof (proj1 Hwf) as Hm.
  apply (nth_ext _ _ 0 0); [len|].
  intros i Hi. assert (i < c_in c)%nat as Hi' by len.
  unfold reverse_row in *.
  destruct (binary_nth _ i Hb ltac:(lia)) as [E|E]; vec_nth; rewrite E; ring.
Qed.

Lemma reverse_forward_scalar m z s t :
  m = 0 \/ m = 1 ->
  m * z + (1 - m) * (m * z + (1 - m) * (z * exp s + t) - t) * exp (- s) = z.
Proof.
  intros [E|E]; subst m; [|ring].
  transitivity (z * (exp s * exp (- s))); [ring|].
  rewrite exp_cancel_l. ring.
Qed.

Lemma forward_reverse_scalar m z s t :
  m = 0 \/ m = 1 ->
  m * z +
  (1 - m) * ((m * z + (1 - m) * (z - t) * exp (- s)) * exp s + t) = z.
Proof.
  intros [E|E]; subst m; [|ring].
  transitivity ((z - t) * (exp s * exp (- s)) + t); [ring|].
  rewrite exp_cancel_l. ring.
Qed.

Lemma reverse_forward_row c z :
  Coupling_wf c -> binary (mask c) -> length z = c_in c ->
  reverse_row c (forward_row c z) = z.
Proof.
  intros Hwf Hb Hz.
  pose proof (length_log_scale_row c z Hwf) as Hs.
  pose proof (length_t_row c z Hwf) as Ht.
  pose proof (length_forward_row c z Hwf Hz) as Hf.
  pose proof (proj1 Hwf) as Hm.
  pose proof (masked_forward_row c z Hwf Hb Hz) as Hk.
  unfold reverse_row, log_scale_row, t_row. rewrite Hk.
  fold (log_scale_row c z). fold (t_row c z).
  apply (nth_ext _ _ 0 0); [len|].
  intros i Hi. assert (i < c_in c)%nat as Hi' by len.
  pose proof (binary_nth _ i Hb ltac:(lia)) as E.
  unfold forward_row in *. vec_nth.
  apply reverse_forward_scalar; exact E.
Qed.

Lemma forward_reverse_row c z :
  Coupling_wf c -> binary (mask c) -> length z = c_in c ->
  forward_row c (reverse_row c z) = z.
Proof.
  intros Hwf Hb Hz.
  pose proof (length_log_scale_row c z Hwf) as Hs.
  pose proof (length_t_row c z Hwf) as Ht.
  pose proof (length_reverse_row c z Hwf Hz) as Hf.
  pose proof (proj1 Hwf) as Hm.
  pose proof (masked_reverse_row c z Hwf Hb Hz) as Hk.
  unfold forward_row, log_scale_row, t_row. rewrite Hk.
  fold (log_scale_row c z). fold (t_row c z).
  apply (nth_ext _ _ 0 0); [len|].
  intros i Hi. assert (i < c_in c)%nat as Hi' by len.
  pose proof (binary_nth _ i Hb ltac:(lia)) as E.
  unfold reverse_row in *. vec_nth.
  apply forward_reverse_scalar; exact E.
Qed.

Lemma batch_shape_forward c z :
  Coupling_wf c -> batch_shape (c_in c) z ->
  batch_shape (c_in c) (map (forward_row c) z).
Proof.
  intros Hwf Hz. unfold batch_shape in *. rewrite Forall_map.
  eapply Forall_impl; [|exact Hz]. intros r Hr.
  apply length_forward_row; assumption.
Qed.

Lemma batch_shape_reverse c z :
  Coupling_wf c -> batch_shape (c_in c) z ->
  batch_shape (c_in c) (map (reverse_row c) z).
Proof.
  intros Hwf Hz. unfold batch_shape in *. rewrite Forall_map.
  eapply Forall_impl; [|exact Hz]. intros r Hr.
  apply length_reverse_row; assumption.
Qed.

(** ** Coupling layers *)

(** C1: with a binary mask and fixed parameters, a coupling layer run forward
    and then in reverse on the result returns the original [z], whatever the
    [ldj] passed to either call; the same holds for reverse followed by
    forward. *)
Theorem Coupling_forward_then_inverse c z ldj ldj' :
  Coupling_wf c -> binary (mask c) -> batch_shape (c_in c) z ->
  fst (Coupling_forward c (fst (Coupling_forward c z ldj false)) ldj' true) = z
  /\
  fst (Coupling_forward c (fst (Coupling_forward c z ldj true)) ldj' false) = z.
Proof.
  intros Hwf Hb Hz.
  rewrite !Coupling_forward_rows, !Coupling_reverse_rows. cbn [fst].
  rewrite !map_map. split; apply map_id_in.
  - eapply Forall_impl; [|exact Hz]. intros r Hr.
    apply reverse_forward_row; assumption.
  - eapply Forall_impl; [|exact Hz]. intros r Hr.
    apply forward_reverse_row; assumption.
Qed.

Lemma sum_where_mask0_binary m s :
  binary m -> vsum (vmul (one_minus m) s) = sum_where_mask0 m s.
Proof.
  unfold sum_where_mask0, vmul, one_minus. intro Hb. revert s.
  induction Hb as [|x m Hx Hb IH]; intros [|y s]; simpl; try reflexivity.
  rewrite IH. unfold is_zero.
  destruct (Req_dec_T x 0) as [E|E]; simpl.
  - subst x. lra.
  - destruct Hx as [Hx|Hx]; [contradiction|]. subst x. lra.
Qed.

Lemma nth_map_in {A B : Type} (f : A -> B) (l : list A) i (da : A) (db : B) :
  (i < length l)%nat -> nth i (map f l) db = f (nth i l da).
Proof.
  intro H.
  rewrite (nth_indep (map f l) db (f da)) by (rewrite length_map; exact H).
  apply map_nth.
Qed.

Lemma vmul_by_index (m r : vec) n :
  length m = n -> length r = n ->
  vmul m r = map (fun i => nth i m 0 * nth i r 0) (seq 0 n).
Proof.
  intros Hm Hr. unfold vmul. apply (nth_ext _ _ 0 0).
  - rewrite length_zipWith, length_map, length_seq. lia.
  - intros i Hi. rewrite length_zipWith in Hi.
    rewrite (nth_zipWith _ _ _ _ 0 0 0) by lia.
    rewrite (nth_map_in (fun k => nth k m 0 * nth k r 0) (seq 0 n) i 0%nat 0)
      by (rewrite length_seq; lia).
    rewrite seq_nth by lia. reflexivity.
Qed.

Lemma log_scale_row_by_index c r :
  Coupling_wf c ->
  log_scale_row c r =
  map (fun i => tanh (nth i (nn_row c (vmul (mask c) r)) 0))
      (seq 0 (c_in c)).
Proof.
  intro Hwf. pose proof (length_log_scale_row c r Hwf) as Hs.
  apply (nth_ext _ _ 0 0).
  - rewrite Hs, length_map, length_seq. reflexivity.
  - intros i Hi. rewrite Hs in Hi.
    rewrite (nth_map_in _ (seq 0 (c_in c)) i 0%nat 0)
      by (rewrite length_seq; exact Hi).
    rewrite seq_nth by exact Hi. cbn [Nat.add].
    unfold log_scale_row.
    pose proof (length_nn_row c (vmul (mask c) r) Hwf) as Hn.
    rewrite nth_map0 by (rewrite length_firstn, Hn; lia).
    rewrite nth_firstn.
    destruct (Nat.ltb_spec i (c_in c)) as [_|Hge]; [reflexivity | lia].
Qed.

(** C4: in the forward direction the layer computes (h, t) from the network
    applied to [mask * z] (h the first [c_in] outputs, t the next [c_in]),
    sets [log_scale = tanh h], returns, entry by entry,
    [mask * z + (1 - mask) * (z * exp log_scale + t)] and adds to the [ldj] of
    each example the sum of [log_scale] over the dimensions where the mask
    is 0. *)
Theorem Coupling_forward_spec c z ldj :
  Coupling_wf c -> binary (mask c) -> batch_shape (c_in c) z ->
  length ldj = length z ->
  let D := c_in c in
  let m := fun i => nth i (mask c) 0 in
  let zv := fun b i => nth i (nth b z []) 0 in
  let out := fun b => nn_row c (map (fun i => m i * zv b i) (seq 0 D)) in
  let h := fun b i => nth i (out b) 0 in
  let t := fun b i => nth (D + i) (out b) 0 in
  let log_scale := fun b i => tanh (h b i) in
  let z' := fst (Coupling_forward c z ldj false) in
  let ldj' := snd (Coupling_forward c z ldj false) in
  length z' = length z /\ length ldj' = length z /\
  forall b, (b < length z)%nat ->
    length (out b) = (2 * D)%nat /\
    length (nth b z' []) = D /\
    (forall i, (i < D)%nat ->
       nth i (nth b z' []) 0
       = m i * zv b i
         + (1 - m i) * (zv b i * exp (log_scale b i) + t b i)) /\
    nth b ldj' 0
    = nth b ldj 0 + sum_where_mask0 (mask c) (map (log_scale b) (seq 0 D)).
Proof.
  intros Hwf Hb Hz Hl. cbv zeta. rewrite Coupling_forward_rows. cbn [fst snd].
  split; [apply length_map|].
  split; [rewrite length_zipWith, length_map; lia|].
  intros b Hbz.
  assert (length (nth b z []) = c_in c) as Hrow
    by (exact (proj1 (Forall_nth _ z) Hz b [] Hbz)).
  rewrite (nth_map_in (forward_row c) z b [] []) by exact Hbz.
  rewrite (nth_zipWith _ _ _ _ 0 0 0)
    by (rewrite ?length_map; lia).
  rewrite (nth_map_in (ldj_row c) z b [] 0) by exact Hbz.
  set (row := nth b z []) in *.
  rewrite <- (vmul_by_index (mask c) row (c_in c) (proj1 Hwf) Hrow).
  pose proof (length_nn_row c (vmul (mask c) row) Hwf) as Hn.
  pose proof (length_log_scale_row c row Hwf) as Hs.
  pose proof (length_t_row c row Hwf) as Ht.
  pose proof (proj1 Hwf) as Hm.
  split; [exact Hn|].
  split; [apply length_forward_row; assumption|].
  split.
  - intros i Hi. unfold forward_row.
    rewrite (nth_zipWith Rplus _ _ _ 0 0 0) by len.
    rewrite (nth_zipWith Rmult (mask c) _ _ 0 0 0) by len.
    rewrite (nth_zipWith Rmult (one_minus (mask c)) _ _ 0 0 0) by len.
    rewrite (nth_zipWith Rplus _ (t_row c row) _ 0 0 0) by len.
    rewrite (nth_zipWith Rmult row _ _ 0 0 0) by len.
    unfold one_minus. rewrite !nth_map0 by len.
    rewrite (log_scale_row_by_index c row Hwf).
    rewrite (nth_map_in _ (seq 0 (c_in c)) i 0%nat 0)
      by (rewrite length_seq; exact Hi).
    rewrite seq_nth by exact Hi. cbn [Nat.add].
    unfold t_row. rewrite nth_skipn. reflexivity.
  - unfold ldj_row. rewrite (sum_where_mask0_binary _ _ Hb).
    rewrite (log_scale_row_by_index c row Hwf). reflexivity.
Qed.

(** C6: in the reverse direction a coupling layer returns its [ldj] argument
    unchanged, and so does the whole flow. *)
Theorem reverse_leaves_ldj_unchanged :
  (forall c z ldj, snd (Coupling_forward c z ldj true) = ldj) /\
  (forall f z ldj, snd (Flow_forward f z ldj true) = ldj).
Proof.
  split.
  - intros c z ldj. rewrite Coupling_reverse_rows. reflexivity.
  - intros f z ldj. unfold Flow_forward. simpl negb. cbv iota.
    generalize (rev (layers f)) as ls. intro ls. revert z.
    induction ls as [|l ls IH]; intro z; simpl; [reflexivity|].
    rewrite Coupling_reverse_rows. cbn [fst snd]. apply IH.
Qed.

(** ** A freshly constructed layer *)

Lemma tanh_0 : tanh 0 = 0.
Proof. unfold tanh. rewrite sinh_0. unfold Rdiv. ring. Qed.

Lemma dot_zeros (x : vec) n : dot x (repeat 0 n) = 0.
Proof.
  unfold dot, vmul. revert n.
  induction x as [|a x IH]; intros [|n]; simpl; try reflexivity.
  unfold vsum in IH. rewrite IH. ring.
Qed.

Lemma Linear_forward_zeros (x : vec) n_in n_out :
  Linear_forward {| weight := repeat (repeat 0 n_in) n_out;
                    bias := repeat 0 n_out |} x = repeat 0 n_out.
Proof.
  unfold Linear_forward. cbn [weight bias].
  induction n_out as [|k IH]; simpl; [reflexivity|].
  rewrite IH, dot_zeros. f_equal. ring.
Qed.

Lemma firstn_repeat_add {A : Type} (a : A) n k :
  firstn n (repeat a (n + k)) = repeat a n.
Proof. induction n; simpl; congruence. Qed.

Lemma skipn_repeat_add {A : Type} (a : A) n k :
  skipn n (repeat a (n + k)) = repeat a k.
Proof. induction n; simpl; congruence. Qed.

Lemma nn_row_init n m nh l0 l2 x :
  nn_row (Coupling_init n m nh l0 l2) x = repeat 0 (n + n).
Proof.
  unfold nn_row, Coupling_init. cbn [nn_4 nn_2 nn_0].
  rewrite Linear_forward_zeros. f_equal. lia.
Qed.

Lemma log_scale_row_init n m nh l0 l2 z :
  log_scale_row (Coupling_init n m nh l0 l2) z = repeat 0 n.
Proof.
  unfold log_scale_row. rewrite nn_row_init. cbn [c_in Coupling_init].
  rewrite firstn_repeat_add, map_repeat, tanh_0. reflexivity.
Qed.

Lemma t_row_init n m nh l0 l2 z :
  t_row (Coupling_init n m nh l0 l2) z = repeat 0 n.
Proof.
  unfold t_row. rewrite nn_row_init. cbn [c_in Coupling_init].
  apply skipn_repeat_add.
Qed.

Lemma forward_row_init n m nh l0 l2 z :
  length m = n -> length z = n ->
  forward_row (Coupling_init n m nh l0 l2) z = z.
Proof.
  intros Hm Hz. unfold forward_row.
  rewrite log_scale_row_init, t_row_init. cbn [mask Coupling_init].
  apply (nth_ext _ _ 0 0); [len|].
  intros i Hi. assert (i < n)%nat as Hi' by len.
  vec_nth. rewrite nth_repeat, exp_0. ring.
Qed.

Lemma ldj_row_init n m nh l0 l2 z :
  ldj_row (Coupling_init n m nh l0 l2) z = 0.
Proof.
  unfold ldj_row. rewrite log_scale_row_init. apply dot_zeros.
Qed.

(** C5: a freshly constructed coupling layer, whose last linear layer is
    zeroed, is the identity in the forward direction: it returns [z] itself
    and leaves a zero [ldj] at zero, for any mask. *)
Theorem Coupling_identity_at_init n m nh l0 l2 z :
  length m = n -> batch_shape n z ->
  Coupling_forward (Coupling_init n m nh l0 l2) z
                   (zeros (length z)) false
  = (z, zeros (length z)).
Proof.
  intros Hm Hz. rewrite Coupling_forward_rows. f_equal.
  - apply map_id_in. eapply Forall_impl; [|exact Hz]. intros r Hr.
    apply forward_row_init; assumption.
  - unfold zeros.
    replace (map (ldj_row (Coupling_init n m nh l0 l2)) z)
      with (repeat 0 (length z)).
    + apply zipWith_zeros_r. apply repeat_length.
    + clear. induction z as [|r z IH]; simpl; [reflexivity|].
      rewrite ldj_row_init. f_equal. exact IH.
Qed.

(** ** Flow *)

Lemma forward_steps_shape D ls z ldj :
  Forall (fun c => Coupling_wf c /\ c_in c = D /\ binary (mask c)) ls ->
  batch_shape D z ->
  batch_shape D (fst (fold_left forward_step ls (z, ldj))).
Proof.
  intro Hls. revert z ldj.
  induction Hls as [|l ls (Hwf & HD & Hb) Hls IH]; intros z ldj Hz; simpl.
  - exact Hz.
  - unfold forward_step at 2. cbn [fst snd]. rewrite Coupling_forward_rows.
    apply IH. subst D. apply batch_shape_forward; assumption.
Qed.

Lemma reverse_forward_steps D ls z ldj ldj' :
  Forall (fun c => Coupling_wf c /\ c_in c = D /\ binary (mask c)) ls ->
  batch_shape D z ->
  fst (fold_left reverse_step (rev ls)
         (fst (fold_left forward_step ls (z, ldj)), ldj')) = z.
Proof.
  intro Hls. revert z ldj ldj'.
  induction Hls as [|l ls (Hwf & HD & Hb) Hls IH]; intros z ldj ldj' Hz.
  - reflexivity.
  - cbn [rev fold_left]. rewrite fold_left_app. cbn [fold_left].
    unfold forward_step at 2. cbn [fst snd].
    rewrite Coupling_forward_rows.
    unfold reverse_step at 1. rewrite Coupling_reverse_rows. cbn [fst].
    rewrite IH by (subst D; apply batch_shape_forward; assumption).
    rewrite map_map. apply map_id_in.
    eapply Forall_impl; [|exact Hz]. intros r Hr.
    apply reverse_forward_row; congruence.
Qed.

(** C2: running the flow forward and then in reverse on the resulting [z]
    returns the original [z] (in particular when both passes start from a zero
    [ldj]); the reverse pass applies the layers last to first, each with
    [reverse=true]. *)
Theorem Flow_forward_then_inverse D f z ldj ldj' :
  Flow_wf D f -> batch_shape D z ->
  fst (Flow_forward f (fst (Flow_forward f z ldj false)) ldj' true) = z /\
  Flow_forward f z ldj true =
    fold_right (fun layer s => Coupling_forward layer (fst s) (snd s) true)
               (z, ldj) (layers f).
Proof.
  intros Hf Hz. unfold Flow_forward. simpl negb. cbv iota. split.
  - apply (reverse_forward_steps D); assumption.
  - pose proof (fold_left_rev_right
                  (fun layer s => Coupling_forward layer (fst s) (snd s) true)
                  (rev (layers f)) (z, ldj)) as H.
    rewrite rev_involutive in H. symmetry. exact H.
Qed.

(** ** Logit normalization *)

Lemma width_bmap f z : width (bmap f z) = width z.
Proof. destruct z; simpl; [reflexivity | apply length_map]. Qed.

Lemma contribution_shift (c : R) (logdet : list R) :
  contribution (map (fun l => l + c) logdet) logdet = map (fun _ => c) logdet.
Proof.
  unfold contribution. induction logdet as [|l logdet IH]; simpl;
    [reflexivity|]. rewrite IH. f_equal. ring.
Qed.

(** C7: for tensors of the same width, what dividing by 256 adds to [logdet]
    in forward normalization, [- ln 256 * D], is the negation of what
    multiplying by 256 adds in reverse normalization, [ln 256 * D]. *)
Theorem rescale_ldj_sign_symmetry z z' logdet :
  width z = width z' ->
  contribution (snd (divide_by_256 z logdet)) logdet
    = map (fun _ => - (ln 256 * INR (width z))) logdet /\
  contribution (snd (multiply_by_256 z' logdet)) logdet
    = map (fun _ => ln 256 * INR (width z)) logdet /\
  contribution (snd (divide_by_256 z logdet)) logdet
    = map Ropp (contribution (snd (multiply_by_256 z' logdet)) logdet).
Proof.
  intro Hw. unfold divide_by_256, multiply_by_256. cbn [snd].
  rewrite width_bmap, <- Hw.
  rewrite (contribution_shift (ln 256 * INR (width z))).
  replace (map (fun l => l - ln 256 * INR (width z)) logdet)
    with (map (fun l => l + - (ln 256 * INR (width z))) logdet)
    by (apply map_ext; intro; ring).
  rewrite contribution_shift, map_map. auto.
Qed.

Lemma dequantized_row_range (src : nat -> R) (r : vec) start :
  (forall k, 0 <= src k < 1) ->
  Forall (fun v => 0 <= v <= 255) r ->
  Forall (fun v => 0 <= v < 256) (vadd r (map src (seq start (length r)))).
Proof.
  intros Hsrc Hr. revert start.
  induction Hr as [|a r Ha Hr IH]; intro start; simpl; constructor.
  - specialize (Hsrc start). lra.
  - apply IH.
Qed.

Lemma dequantized_range (src : nat -> R) (x : batch) start :
  (forall k, 0 <= src k < 1) ->
  pixel_range x ->
  Forall (Forall (fun v => 0 <= v < 256)) (badd x (draw_like src start x)).
Proof.
  intros Hsrc Hx. revert start.
  induction Hx as [|r x Hr Hx IH]; intro start; simpl; constructor.
  - apply dequantized_row_range; assumption.
  - apply IH.
Qed.

Lemma alpha_shrink_scalar v :
  0 <= v < 256 ->
  0 < v / 256 * (1 - alpha) + alpha * 0.5 < 1.
Proof. unfold alpha. intros [H0 H1]. split; lra. Qed.

(** C8: for raw pixel values in [0, 255] and noise in [0, 1), every entry
    obtained after dividing by 256 and applying the alpha-shrink lies strictly
    between 0 and 1, so both [ln z] and [ln (1 - z)] are taken of strictly
    positive numbers. *)
Theorem shrunk_values_inside_unit_interval x g logdet :
  pixel_range x -> generator_ok g ->
  let z := alpha_shrink (fst (divide_by_256 (fst (dequantize x g)) logdet)) in
  Forall (Forall (fun v => 0 < v < 1 /\ 0 < v /\ 0 < 1 - v)) z.
Proof.
  intros Hx Hg. unfold dequantize, bind, rand_like, ret. cbn [fst].
  unfold divide_by_256, alpha_shrink, bmap. cbn [fst]. rewrite map_map.
  rewrite Forall_map.
  eapply Forall_impl;
    [|exact (dequantized_range (uniform g) x (cursor g) Hg Hx)].
  intros r Hr. rewrite map_map, Forall_map.
  eapply Forall_impl; [|exact Hr]. cbv beta.
  intros v Hv. pose proof (alpha_shrink_scalar v Hv). lra.
Qed.

(** ** A freshly constructed flow is the identity *)

Lemma reverse_row_init n m nh l0 l2 z :
  length m = n -> length z = n ->
  reverse_row (Coupling_init n m nh l0 l2) z = z.
Proof.
  intros Hm Hz. unfold reverse_row.
  rewrite log_scale_row_init, t_row_init. cbn [mask Coupling_init].
  apply (nth_ext _ _ 0 0); [len|].
  intros i Hi. assert (i < n)%nat as Hi' by len.
  vec_nth. rewrite nth_repeat, Ropp_0, exp_0. ring.
Qed.

Lemma Coupling_init_forward n m nh l0 l2 z ldj :
  length m = n -> batch_shape n z -> length ldj = length z ->
  Coupling_forward (Coupling_init n m nh l0 l2) z ldj false = (z, ldj).
Proof.
  intros Hm Hz Hl. rewrite Coupling_forward_rows. f_equal.
  - apply map_id_in. eapply Forall_impl; [|exact Hz]. intros r Hr.
    apply forward_row_init; assumption.
  - replace (map (ldj_row (Coupling_init n m nh l0 l2)) z)
      with (repeat 0 (length z)).
    + apply zipWith_zeros_r. exact Hl.
    + clear. induction z as [|r z IH]; simpl; [reflexivity|].
      rewrite ldj_row_init. f_equal. exact IH.
Qed.

Lemma Coupling_init_reverse n m nh l0 l2 z ldj :
  length m = n -> batch_shape n z ->
  Coupling_forward (Coupling_init n m nh l0 l2) z ldj true = (z, ldj).
Proof.
  intros Hm Hz. rewrite Coupling_reverse_rows. f_equal.
  apply map_id_in. eapply Forall_impl; [|exact Hz]. intros r Hr.
  apply reverse_row_init; assumption.
Qed.

Lemma fresh_forward_steps n ls z ldj :
  Forall (fresh_layer n) ls -> batch_shape n z -> length ldj = length z ->
  fold_left forward_step ls (z, ldj) = (z, ldj).
Proof.
  intros Hls Hz Hl.
  induction Hls as [|l ls (m & nh & l0 & l2 & -> & Hm) Hls IH]; simpl;
    [reflexivity|].
  unfold forward_step at 2. cbn [fst snd].
  rewrite Coupling_init_forward by assumption. exact IH.
Qed.

Lemma fresh_reverse_steps n ls z ldj :
  Forall (fresh_layer n) ls -> batch_shape n z ->
  fold_left reverse_step ls (z, ldj) = (z, ldj).
Proof.
  intros Hls Hz.
  induction Hls as [|l ls (m & nh & l0 & l2 & -> & Hm) Hls IH]; simpl;
    [reflexivity|].
  unfold reverse_step at 2. cbn [fst snd].
  rewrite Coupling_init_reverse by assumption. exact IH.
Qed.

Lemma length_get_mask : length get_mask = 784%nat.
Proof. reflexivity. Qed.

Lemma Flow_init_fresh n_flows init :
  Forall (fresh_layer 784) (layers (Flow_init 784 n_flows init)).
Proof.
  unfold Flow_init. cbn [layers]. generalize (seq 0 n_flows) as l.
  induction l as [|i l IH]; cbn [flat_map app]; [constructor|].
  constructor; [|constructor; [|exact IH]].
  - eexists _, _, _, _. split; [reflexivity | exact length_get_mask].
  - eexists _, _, _, _. split; [reflexivity|].
    unfold one_minus. rewrite length_map. exact length_get_mask.
Qed.

Lemma Flow_init_forward n_flows init z ldj reverse :
  batch_shape 784 z -> length ldj = length z ->
  Flow_forward (Flow_init 784 n_flows init) z ldj reverse = (z, ldj).
Proof.
  intros Hz Hl. pose proof (Flow_init_fresh n_flows init) as Hf.
  unfold Flow_forward. destruct reverse; simpl negb; cbv iota.
  - apply (fresh_reverse_steps 784); [apply Forall_rev|]; assumption.
  - apply (fresh_forward_steps 784); assumption.
Qed.

(** ** Sampling *)

Lemma sigmoid_range y : 0 < sigmoid y < 1.
Proof.
  unfold sigmoid. pose proof (exp_pos (- y)) as He.
  set (e := exp (- y)) in *. split.
  - apply Rdiv_lt_0_compat; lra.
  - apply (Rmult_lt_reg_r (1 + e)); [lra|].
    unfold Rdiv. rewrite Rmult_assoc, Rinv_l by lra. lra.
Qed.

Lemma bmap_bmap f g z : bmap f (bmap g z) = bmap (fun v => f (g v)) z.
Proof.
  unfold bmap. rewrite map_map. apply map_ext. intro r. apply map_map.
Qed.

Lemma bmap_ext f g z : (forall v, f v = g v) -> bmap f z = bmap g z.
Proof. intro H. unfold bmap. apply map_ext. intro r. apply map_ext, H. Qed.

Lemma logit_normalize_reverse_values y logdet :
  fst (logit_normalize y logdet true) = bmap inverse_logit_closed_form y.
Proof.
  unfold logit_normalize, inverse_logit_step, multiply_by_256.
  simpl negb. cbv iota. cbn [fst]. rewrite !bmap_bmap.
  apply bmap_ext. intro v. unfold inverse_logit_closed_form, alpha.
  field.
Qed.

Lemma inverse_logit_closed_form_range y :
  - 256 * alpha * 0.5 / (1 - alpha) < inverse_logit_closed_form y
    < 256 * (1 - alpha * 0.5) / (1 - alpha).
Proof.
  pose proof (sigmoid_range y) as Hs. unfold inverse_logit_closed_form, alpha.
  lra.
Qed.

Lemma sigmoid_very_negative : sigmoid (- 200000) < alpha * 0.5.
Proof.
  unfold sigmoid, alpha. replace (- (- 200000)) with 200000 by lra.
  assert (1 + 200000 < exp 200000) as He by (apply exp_ineq1; lra).
  set (e := exp 200000) in *.
  apply (Rmult_lt_reg_r (1 + e)); [lra|].
  replace (1 / (1 + e) * (1 + e)) with 1 by (field; lra).
  lra.
Qed.

Lemma sigmoid_very_positive : 1 - alpha * 0.5 < sigmoid 200000.
Proof.
  unfold sigmoid, alpha.
  assert (1 + 200000 < exp 200000) as He by (apply exp_ineq1; lra).
  assert (exp (- (200000)) < / 200001) as Hn.
  { rewrite exp_Ropp. apply Rinv_lt_contravar; [|lra].
    apply Rmult_lt_0_compat; [lra | apply exp_pos]. }
  pose proof (exp_pos (- (200000))) as Hp.
  set (e := exp (- (200000))) in *.
  apply (Rmult_lt_reg_r (1 + e)); [lra|].
  replace (1 / (1 + e) * (1 + e)) with 1 by (field; lra).
  lra.
Qed.

Lemma draw_like_Forall (P : R -> Prop) src start z :
  (forall k, P (src k)) -> Forall (Forall P) (draw_like src start z).
Proof.
  intro H. revert start. induction z as [|r z IH]; intro start; simpl;
    constructor; [|apply IH].
  rewrite Forall_map. apply Forall_forall. intros k _. apply H.
Qed.

Lemma draw_like_shape src start n d :
  batch_shape d (draw_like src start (repeat (repeat 0 d) n)).
Proof.
  unfold batch_shape. revert start.
  induction n as [|n IH]; intro start; cbn [repeat draw_like]; constructor;
    [|apply IH].
  rewrite length_map, length_seq. apply repeat_length.
Qed.

Lemma length_draw_like src start z :
  length (draw_like src start z) = length z.
Proof. revert start. induction z; intro; simpl; auto. Qed.

(** What [Model.sample] returns for a freshly constructed model: the prior
    draws pushed through reverse logit-normalization. *)
Lemma Model_sample_init init n_samples g :
  fst (Model_sample (Model_init 784 init) n_samples g) =
  bmap inverse_logit_closed_form (fst (sample_prior n_samples 784 g)).
Proof.
  unfold Model_sample, bind, ret, sample_prior, randn.
  cbn [flow Model_init z_shape Flow_init fst].
  fold (Flow_init 784 4 init).
  rewrite Flow_init_forward;
    [| apply draw_like_shape | unfold zeros; apply repeat_length ].
  pose proof (logit_normalize_reverse_values
    (draw_like (normal g) (cursor g) (repeat (repeat 0 784) n_samples))
    (zeros (length (draw_like (normal g) (cursor g)
                      (repeat (repeat 0 784) n_samples))))) as H.
  destruct (logit_normalize _ _ true) as [x_hat ldj]. exact H.
Qed.

Lemma Forall_Exists_nonempty {A : Type} (P : A -> Prop) (l : list A) :
  Forall P l -> (0 < length l)%nat -> Exists P l.
Proof.
  intros H Hl. destruct H as [|a l Ha H]; simpl in Hl; [lia|].
  apply Exists_cons_hd. exact Ha.
Qed.

Lemma all_entries_some_entry (P : R -> Prop) (z : batch) d :
  Forall (Forall P) z -> batch_shape d z ->
  (0 < d)%nat -> (0 < length z)%nat -> Exists (Exists P) z.
Proof.
  intros HP Hs Hd Hz. apply Forall_Exists_nonempty; [|exact Hz].
  unfold batch_shape in Hs.
  pose proof (Forall_and HP Hs) as H.
  eapply Forall_impl; [|exact H]. cbv beta. intros r [Hr Hl].
  apply Forall_Exists_nonempty; [exact Hr | lia].
Qed.

Lemma bmap_Forall (P : R -> Prop) f z :
  Forall (Forall (fun v => P (f v))) z -> Forall (Forall P) (bmap f z).
Proof.
  intro H. unfold bmap. rewrite Forall_map.
  eapply Forall_impl; [|exact H]. intros r Hr. rewrite Forall_map. exact Hr.
Qed.

Lemma bmap_shape f z d : batch_shape d z -> batch_shape d (bmap f z).
Proof.
  unfold batch_shape, bmap. intro H. rewrite Forall_map.
  eapply Forall_impl; [|exact H]. intros r Hr. rewrite length_map. exact Hr.
Qed.

Lemma fresh_sample_entries (P : R -> Prop) init (a : R) :
  P (inverse_logit_closed_form a) ->
  Exists (Exists P)
    (fst (Model_sample (Model_init 784 init) 1
            {| uniform := fun _ => 0; normal := fun _ => a; cursor := 0 |})).
Proof.
  intro Ha. rewrite Model_sample_init. unfold sample_prior, randn.
  cbn [fst normal cursor].
  apply (all_entries_some_entry P _ 784).
  - apply bmap_Forall. apply draw_like_Forall. intros _. exact Ha.
  - apply bmap_shape. apply draw_like_shape.
  - lia.
  - unfold bmap. rewrite length_map, length_draw_like. simpl. lia.
Qed.

(** C10: reverse logit-normalization sends each entry [y] to
    [256 * (sigmoid y - alpha * 0.5) / (1 - alpha)], which lies strictly
    between [- 256 * alpha * 0.5 / (1 - alpha)] and
    [256 * (1 - alpha * 0.5) / (1 - alpha)]; some prior draws make
    [Model.sample] return an entry below 0 and others an entry above 256. *)
Theorem reverse_logit_normalize_range :
  (forall y logdet,
     fst (logit_normalize y logdet true) = bmap inverse_logit_closed_form y) /\
  (forall y,
     - 256 * alpha * 0.5 / (1 - alpha) < inverse_logit_closed_form y
       < 256 * (1 - alpha * 0.5) / (1 - alpha)) /\
  (forall init, exists g,
     Exists (Exists (fun v => v < 0))
            (fst (Model_sample (Model_init 784 init) 1 g))) /\
  (forall init, exists g,
     Exists (Exists (fun v => 256 < v))
            (fst (Model_sample (Model_init 784 init) 1 g))).
Proof.
  split; [exact logit_normalize_reverse_values|].
  split; [exact inverse_logit_closed_form_range|].
  split; intro init.
  - eexists. apply (fresh_sample_entries _ init (- 200000)).
    pose proof sigmoid_very_negative as H.
    unfold inverse_logit_closed_form, alpha in *. lra.
  - eexists. apply (fresh_sample_entries _ init 200000).
    pose proof sigmoid_very_positive as H.
    unfold inverse_logit_closed_form, alpha in *. lra.
Qed.

(** ** Density evaluation *)

Lemma logit_normalize_forward_rows z logdet :
  logit_normalize z logdet false =
  (bmap logit_map z,
   zipWith Rplus
     (map (fun l => l - ln 256 * INR (width z)) logdet)
     (map (fun r =>
             vsum (map (fun v => - ln (shrunk v) - ln (1 - shrunk v)) r)) z)).
Proof.
  unfold logit_normalize, divide_by_256, logit_step, alpha_shrink.
  simpl negb. cbv iota. rewrite !bmap_bmap, width_bmap.
  unfold sum_dim1, bmap. rewrite map_map. reflexivity.
Qed.

Lemma shrunk_range v : 0 <= v < 256 -> 0 < shrunk v < 1.
Proof. exact (alpha_shrink_scalar v). Qed.

Lemma derivable_pt_lim_affine a b x :
  derivable_pt_lim (fun v => a * v + b) x a.
Proof.
  intros eps Heps. exists (mkposreal 1 Rlt_0_1). intros h Hh _.
  replace ((a * (x + h) + b - (a * x + b)) / h - a) with 0
    by (field; exact Hh).
  rewrite Rabs_R0. exact Heps.
Qed.

Lemma derivable_pt_lim_shrunk x :
  derivable_pt_lim shrunk x ((1 - alpha) / 256).
Proof.
  apply (derivable_pt_lim_ext
           (fun v => (1 - alpha) / 256 * v + alpha * 0.5)).
  - intro v. unfold shrunk. field.
  - apply derivable_pt_lim_affine.
Qed.

(** [logit_map_deriv] is the derivative of [logit_map] wherever the shrunk
    entry lies strictly between 0 and 1. *)
Lemma derivable_pt_lim_logit_map x :
  0 < shrunk x < 1 ->
  derivable_pt_lim logit_map x (logit_map_deriv x).
Proof.
  intros [H0 H1].
  assert (derivable_pt_lim (fun v => ln (shrunk v)) x
            (/ shrunk x * ((1 - alpha) / 256))) as D1.
  { apply (derivable_pt_lim_comp shrunk ln).
    - apply derivable_pt_lim_shrunk.
    - apply derivable_pt_lim_ln. exact H0. }
  assert (derivable_pt_lim (fun v => 1 - shrunk v) x
            (- ((1 - alpha) / 256))) as D2.
  { apply (derivable_pt_lim_ext
             (fun v => - ((1 - alpha) / 256) * v + (1 - alpha * 0.5))).
    - intro v. unfold shrunk. field.
    - apply derivable_pt_lim_affine. }
  assert (derivable_pt_lim (fun v => ln (1 - shrunk v)) x
            (/ (1 - shrunk x) * - ((1 - alpha) / 256))) as D3.
  { apply (derivable_pt_lim_comp (fun v => 1 - shrunk v) ln).
    - exact D2.
    - apply derivable_pt_lim_ln. lra. }
  replace (logit_map_deriv x)
    with (/ shrunk x * ((1 - alpha) / 256)
          - / (1 - shrunk x) * - ((1 - alpha) / 256))
    by (unfold logit_map_deriv; field; lra).
  exact (derivable_pt_lim_minus _ _ x _ _ D1 D3).
Qed.

Lemma ln_logit_map_deriv v :
  0 < shrunk v < 1 ->
  ln (logit_map_deriv v) =
  ln (1 - alpha) + (- ln 256 + (- ln (shrunk v) - ln (1 - shrunk v))).
Proof.
  intros [H0 H1]. unfold logit_map_deriv.
  assert (0 < 1 - alpha) as Ha by (unfold alpha; lra).
  replace ((1 - alpha) / 256 * (/ shrunk v + / (1 - shrunk v)))
    with ((1 - alpha) * (/ 256 * (/ shrunk v * / (1 - shrunk v))))
    by (field; lra).
  assert (0 < / shrunk v) by (apply Rinv_0_lt_compat; lra).
  assert (0 < / (1 - shrunk v)) by (apply Rinv_0_lt_compat; lra).
  rewrite ln_mult; [| lra | ].
  2:{ apply Rmult_lt_0_compat; [lra | apply Rmult_lt_0_compat; lra]. }
  rewrite ln_mult; [| lra | apply Rmult_lt_0_compat; lra ].
  rewrite ln_mult by lra.
  rewrite !ln_Rinv by lra. lra.
Qed.

Lemma ln_one_minus_alpha_negative : ln (1 - alpha) < 0.
Proof.
  rewrite <- ln_1. apply ln_increasing; unfold alpha; lra.
Qed.

(** What the code accumulates for one row of width [D] is the
    change-of-variables value less [D * ln (1 - alpha)]. *)
Lemma logit_ldj_row_vs_exact (r : vec) :
  Forall (fun v => 0 <= v < 256) r ->
  vsum (map (fun v => - ln (shrunk v) - ln (1 - shrunk v)) r)
    - ln 256 * INR (length r)
  = change_of_variables_ldj r - INR (length r) * ln (1 - alpha).
Proof.
  unfold change_of_variables_ldj.
  induction 1 as [|v r Hv Hr IH]; [simpl; lra|].
  cbn [map vsum fold_right length]. fold (vsum (map (fun v => ln (logit_map_deriv v)) r)).
  fold (vsum (map (fun v => - ln (shrunk v) - ln (1 - shrunk v)) r)).
  rewrite S_INR, (ln_logit_map_deriv v (shrunk_range v Hv)). lra.
Qed.

Lemma length_badd_draw src start x :
  length (badd x (draw_like src start x)) = length x.
Proof.
  unfold badd. rewrite length_zipWith, length_draw_like. lia.
Qed.

Lemma dequantized_shape D src start x :
  batch_shape D x -> batch_shape D (badd x (draw_like src start x)).
Proof.
  unfold batch_shape. intro H. revert start.
  induction H as [|r x Hr Hx IH]; intro start; simpl; constructor;
    [|apply IH].
  unfold vadd. rewrite length_zipWith, length_map, length_seq. lia.
Qed.

(** [Model.forward], step by step: a zero [ldj], dequantization,
    logit-normalization, the flow, and [log_prior z + ldj]. *)
Lemma Model_forward_steps m x g :
  Model_forward m x g =
  (let z0 := fst (dequantize x g) in
   let p := logit_normalize z0 (zeros (length x)) false in
   let q := Flow_forward (flow m) (fst p) (snd p) false in
   zipWith Rplus (log_prior (fst q)) (snd q),
   snd (dequantize x g)).
Proof.
  unfold Model_forward, bind, ret. cbv zeta.
  destruct (dequantize x g) as [z0 g']. cbn [fst snd].
  destruct (logit_normalize z0 (zeros (length x)) false) as [z1 l1].
  cbn [fst snd].
  destruct (Flow_forward (flow m) z1 l1 false) as [z2 l2]. reflexivity.
Qed.

Lemma zipWith_maps_zeros (A G : vec -> R) (f : R -> R) (z : batch) :
  zipWith Rplus (map A z)
    (zipWith Rplus (map f (zeros (length z))) (map G z))
  = map (fun r => A r + (f 0 + G r)) z.
Proof. unfold zeros. induction z; simpl; congruence. Qed.

Lemma width_batch_shape D z : batch_shape D z -> z <> [] -> width z = D.
Proof. intros H Hz. destruct H; [contradiction | assumption]. Qed.

Lemma INR_784 : INR 784 = 784.
Proof. rewrite INR_IZR_INZ. reflexivity. Qed.

(** For a freshly constructed model the code returns the change-of-variables
    value less [784 * ln (1 - alpha)] for every example. *)
Lemma Model_forward_fresh init x g :
  pixel_range x -> generator_ok g -> batch_shape 784 x ->
  fst (Model_forward (Model_init 784 init) x g) =
  map (fun e => e - 784 * ln (1 - alpha))
      (exact_log_px_fresh (fst (dequantize x g))).
Proof.
  intros Hx Hg Hs. rewrite Model_forward_steps. cbv zeta. cbn [fst].
  unfold dequantize, bind, ret, rand_like. cbn [fst].
  set (z0 := badd x (draw_like (uniform g) (cursor g) x)).
  assert (length z0 = length x) as Hl by apply length_badd_draw.
  assert (batch_shape 784 z0) as Hs0 by (apply dequantized_shape; exact Hs).
  assert (Forall (Forall (fun v => 0 <= v < 256)) z0) as Hr
    by (apply dequantized_range; assumption).
  rewrite logit_normalize_forward_rows. cbn [fst snd flow Model_init].
  rewrite Flow_init_forward.
  2:{ apply bmap_shape. exact Hs0. }
  2:{ rewrite length_zipWith, !length_map. unfold bmap, zeros.
      rewrite length_map, repeat_length. unfold batch, vec in *. lia. }
  cbn [fst snd]. unfold log_prior, sum_dim1, bmap, exact_log_px_fresh.
  rewrite !map_map. rewrite <- Hl. rewrite zipWith_maps_zeros.
  destruct z0 as [|r0 z0'] eqn:E; [reflexivity|]. rewrite <- E in *.
  rewrite (width_batch_shape 784 z0 Hs0) by (rewrite E; discriminate).
  clear E. unfold batch_shape in Hs0.
  pose proof (Forall_and Hs0 Hr) as H. clear - H.
  induction H as [|r z [Hlen Hrow] H IH]; [reflexivity|].
  cbn [map]. rewrite IH. f_equal.
  pose proof (logit_ldj_row_vs_exact r Hrow) as Hc.
  rewrite Hlen, INR_784 in Hc. rewrite INR_784, !map_map. lra.
Qed.

Lemma map_shift_neq (c : R) (l : list R) :
  c <> 0 -> l <> [] -> map (fun e => e - c) l <> l.
Proof.
  intros Hc Hl H. destruct l as [|e l]; [contradiction|].
  simpl in H. injection H as He _. lra.
Qed.

Lemma pixel_range_black_image : pixel_range black_image.
Proof.
  unfold pixel_range, black_image. constructor; [|constructor].
  apply Forall_forall. intros v Hv. apply repeat_spec in Hv. lra.
Qed.

Lemma batch_shape_black_image : batch_shape 784 black_image.
Proof.
  unfold batch_shape, black_image. constructor; [|constructor].
  apply repeat_length.
Qed.

Lemma generator_ok_constant a : generator_ok (constant_generator 0 a).
Proof. intro k. cbn. lra. Qed.

(** C3: for one all-black image and zero noise, the freshly constructed model
    returns the change-of-variables log-likelihood less
    [784 * ln (1 - alpha)], which is not the change-of-variables
    log-likelihood: the Jacobian of the alpha-shrink is left out of [ldj]. *)
Theorem Model_forward_omits_shrink_jacobian init :
  fst (Model_forward (Model_init 784 init) black_image
         (constant_generator 0 0)) =
  map (fun e => e - 784 * ln (1 - alpha))
      (exact_log_px_fresh
         (fst (dequantize black_image (constant_generator 0 0)))) /\
  fst (Model_forward (Model_init 784 init) black_image
         (constant_generator 0 0)) <>
  exact_log_px_fresh
    (fst (dequantize black_image (constant_generator 0 0))).
Proof.
  pose proof (Model_forward_fresh init black_image (constant_generator 0 0)
                pixel_range_black_image (generator_ok_constant 0)
                batch_shape_black_image) as H.
  split; [exact H|]. rewrite H. apply map_shift_neq.
  - pose proof ln_one_minus_alpha_negative. lra.
  - unfold exact_log_px_fresh, dequantize, bind, ret, rand_like.
    cbn [fst]. intro E. apply (f_equal (@length R)) in E.
    rewrite length_map, length_badd_draw in E. discriminate E.
Qed.

(** ** The steps of sampling *)

Lemma Model_sample_steps m n g :
  Model_sample m n g =
  (let z := fst (sample_prior n (z_shape (flow m)) g) in
   let p := Flow_forward (flow m) z (zeros (length z)) true in
   fst (logit_normalize (fst p) (snd p) true),
   snd (sample_prior n (z_shape (flow m)) g)).
Proof.
  unfold Model_sample, bind, ret. cbv zeta.
  destruct (sample_prior n (z_shape (flow m)) g) as [z g']. cbn [fst snd].
  destruct (Flow_forward (flow m) z (zeros (length z)) true) as [x l].
  cbn [fst snd]. destruct (logit_normalize x l true) as [x' l'].
  reflexivity.
Qed.

(** ** The flow built by [Flow.__init__] meets the conditions above *)

Lemma binary_get_mask : binary get_mask.
Proof.
  unfold binary, get_mask. apply Forall_flat_map.
  apply Forall_forall. intros i _. rewrite Forall_map.
  apply Forall_forall. intros j _.
  destruct ((i + j) mod 2 =? 0)%nat; [right | left]; reflexivity.
Qed.

Lemma binary_one_minus m : binary m -> binary (one_minus m).
Proof.
  unfold binary, one_minus. intro H. rewrite Forall_map.
  eapply Forall_impl; [|exact H]. cbv beta. intros x [Hx|Hx]; subst x;
    [right | left]; ring.
Qed.

(** Each pair of layers uses a mask and its complement. *)
Lemma mask_plus_complement m :
  vadd m (one_minus m) = repeat 1 (length m).
Proof.
  unfold vadd, one_minus. induction m as [|x m IH]; simpl; [reflexivity|].
  rewrite IH. f_equal. ring.
Qed.

Lemma Coupling_init_wf n m nh l0 l2 :
  length m = n -> Linear_shape n nh l0 -> Linear_shape nh nh l2 ->
  Coupling_wf (Coupling_init n m nh l0 l2).
Proof.
  intros Hm H0 H2. unfold Coupling_wf, Coupling_init.
  cbn [mask c_in n_hidden nn_0 nn_2 nn_4].
  split; [exact Hm|]. split; [exact H0|]. split; [exact H2|].
  unfold Linear_shape. cbn [weight bias]. rewrite !repeat_length.
  split; [reflexivity|]. split; [|reflexivity].
  apply Forall_forall. intros row Hrow. apply repeat_spec in Hrow.
  subst row. apply repeat_length.
Qed.

Lemma Flow_init_wf n_flows init :
  (forall k, Linear_shape 784 1024 (fst (init k)) /\
             Linear_shape 1024 1024 (snd (init k))) ->
  Flow_wf 784 (Flow_init 784 n_flows init).
Proof.
  intro Hinit. unfold Flow_wf, Flow_init. cbn [layers].
  generalize (seq 0 n_flows) as l.
  induction l as [|i l IH]; cbn [flat_map app]; [constructor|].
  constructor; [|constructor; [|exact IH]].
  - split; [|split; [reflexivity | exact binary_get_mask]].
    apply Coupling_init_wf; [exact length_get_mask | apply Hinit ..].
  - split; [|split; [reflexivity | exact (binary_one_minus _ binary_get_mask)]].
    apply Coupling_init_wf; [| apply Hinit ..].
    unfold one_minus. rewrite length_map. exact length_get_mask.
Qed.

(** ** The statements at concrete inputs *)

Ltac solve_shape :=
  repeat match goal with
         | |- _ /\ _ => split
         | |- Forall _ _ => constructor
         | |- _ \/ _ => first [left; lra | right; lra]
         | |- @eq nat _ _ => reflexivity
         | |- @eq R _ _ => lra
         | |- (_ <= _)%R => lra
         | |- (_ < _)%R => lra
         end.

Lemma example_coupling_wf : Coupling_wf example_coupling.
Proof. unfold Coupling_wf, Linear_shape; cbn; solve_shape. Defined.

Lemma example_coupling'_wf : Coupling_wf example_coupling'.
Proof. unfold Coupling_wf, Linear_shape; cbn; solve_shape. Defined.

Lemma example_coupling_binary : binary (mask example_coupling).
Proof. unfold binary; cbn; solve_shape. Defined.

Lemma example_coupling'_binary : binary (mask example_coupling').
Proof. unfold binary; cbn; solve_shape. Defined.

Lemma example_batch_shape : batch_shape 2 example_batch.
Proof. unfold batch_shape, example_batch; solve_shape. Defined.

Lemma example_flow_wf : Flow_wf 2 example_flow.
Proof.
  unfold Flow_wf, example_flow. cbn [layers].
  constructor; [|constructor; [|constructor]].
  - split; [exact example_coupling_wf|].
    split; [reflexivity | exact example_coupling_binary].
  - split; [exact example_coupling'_wf|].
    split; [reflexivity | exact example_coupling'_binary].
Defined.

Lemma Coupling_forward_then_inverse_witness :
  (Coupling_wf example_coupling /\ binary (mask example_coupling) /\
   batch_shape (c_in example_coupling) example_batch) /\
  fst (Coupling_forward example_coupling
         (fst (Coupling_forward example_coupling example_batch [0; 0] false))
         [0; 0] true) = example_batch /\
  fst (Coupling_forward example_coupling
         (fst (Coupling_forward example_coupling example_batch [0; 0] true))
         [0; 0] false) = example_batch.
Proof.
  split.
  - split; [exact example_coupling_wf|].
    split; [exact example_coupling_binary | exact example_batch_shape].
  - apply (Coupling_forward_then_inverse example_coupling example_batch
             [0; 0] [0; 0] example_coupling_wf example_coupling_binary
             example_batch_shape).
Defined.

Lemma Flow_forward_then_inverse_witness :
  (Flow_wf 2 example_flow /\ batch_shape 2 example_batch) /\
  fst (Flow_forward example_flow
         (fst (Flow_forward example_flow example_batch (zeros 2) false))
         (zeros 2) true) = example_batch.
Proof.
  split.
  - split; [exact example_flow_wf | exact example_batch_shape].
  - apply (Flow_forward_then_inverse 2 example_flow example_batch
             (zeros 2) (zeros 2) example_flow_wf example_batch_shape).
Defined.

Lemma Coupling_forward_spec_witness :
  (Coupling_wf example_coupling /\ binary (mask example_coupling) /\
   batch_shape (c_in example_coupling) example_batch /\
   length [0; 0] = length example_batch) /\
  length (fst (Coupling_forward example_coupling example_batch [0; 0] false))
  = length example_batch.
Proof.
  split.
  - split; [exact example_coupling_wf|].
    split; [exact example_coupling_binary|].
    split; [exact example_batch_shape | reflexivity].
  - apply (proj1 (Coupling_forward_spec example_coupling example_batch
                    [0; 0] example_coupling_wf example_coupling_binary
                    example_batch_shape eq_refl)).
Defined.

Lemma Coupling_identity_at_init_witness :
  (length [1; 0] = 2%nat /\ batch_shape 2 example_batch) /\
  Coupling_forward
    (Coupling_init 2 [1; 0] 1 (nn_0 example_coupling) (nn_2 example_coupling))
    example_batch (zeros (length example_batch)) false
  = (example_batch, zeros (length example_batch)).
Proof.
  split.
  - split; [reflexivity | exact example_batch_shape].
  - apply (Coupling_identity_at_init 2 [1; 0] 1 (nn_0 example_coupling)
             (nn_2 example_coupling) example_batch eq_refl
             example_batch_shape).
Defined.

Lemma rescale_ldj_sign_symmetry_witness :
  width example_batch = width example_pixels /\
  contribution (snd (divide_by_256 example_batch [0; 0])) [0; 0]
  = map Ropp
      (contribution (snd (multiply_by_256 example_pixels [0; 0])) [0; 0]).
Proof.
  split; [reflexivity|].
  apply (rescale_ldj_sign_symmetry example_batch example_pixels [0; 0]
           eq_refl).
Defined.

Lemma example_pixels_range : pixel_range example_pixels.
Proof. unfold pixel_range, example_pixels; solve_shape. Defined.

Lemma constant_generator_ok : generator_ok (constant_generator 0 0).
Proof. intro k. cbn. split; lra. Defined.

Lemma shrunk_values_inside_unit_interval_witness :
  (pixel_range example_pixels /\ generator_ok (constant_generator 0 0)) /\
  Forall (Forall (fun v => 0 < v < 1 /\ 0 < v /\ 0 < 1 - v))
    (alpha_shrink
       (fst (divide_by_256
               (fst (dequantize example_pixels (constant_generator 0 0)))
               [0]))).
Proof.
  split.
  - split; [exact example_pixels_range | exact constant_generator_ok].
  - apply (shrunk_values_inside_unit_interval example_pixels
             (constant_generator 0 0) [0] example_pixels_range
             constant_generator_ok).
Defined.

(** * Further properties of the code *)

(** ** More on lists *)

Lemma zipWith_zeros_l (l : list R) n :
  length l = n -> zipWith Rplus (repeat 0 n) l = l.
Proof.
  revert n; induction l as [|a l IH]; intros [|n] H; simpl in *;
    try discriminate; auto.
  rewrite IH by lia. f_equal. lra.
Qed.

Lemma zipWith_Rplus_assoc (a b c : list R) :
  zipWith Rplus (zipWith Rplus a b) c = zipWith Rplus a (zipWith Rplus b c).
Proof.
  revert b c; induction a as [|x a IH]; intros [|y b] [|w c]; simpl;
    try reflexivity.
  rewrite IH. f_equal. ring.
Qed.

Lemma Forall2_zipWith_increment (P : R -> Prop) (l v : list R) :
  length l = length v -> Forall P v ->
  Forall2 (fun new old => P (new - old)) (zipWith Rplus l v) l.
Proof.
  intros Hl Hv. revert l Hl.
  induction Hv as [|y v Hy Hv IH]; intros [|x l] Hl; simpl in *;
    try discriminate; constructor.
  - replace (x + y - x) with y by ring. exact Hy.
  - apply IH. lia.
Qed.

(** ** The masked half of the input *)

(** X1: in both directions a coupling layer leaves the masked part of its
    input as it is: [mask * z'] equals [mask * z]. *)
Theorem masked_half_unchanged c z ldj reverse :
  Coupling_wf c -> binary (mask c) -> batch_shape (c_in c) z ->
  row_mul (mask c) (fst (Coupling_forward c z ldj reverse))
  = row_mul (mask c) z.
Proof.
  intros Hwf Hb Hz. unfold row_mul.
  destruct reverse;
    [rewrite Coupling_reverse_rows | rewrite Coupling_forward_rows];
    cbn [fst]; rewrite map_map; apply map_ext_Forall;
    (eapply Forall_impl; [|exact Hz]); intros r Hr.
  - apply masked_reverse_row; assumption.
  - apply masked_forward_row; assumption.
Qed.

(** ** The scale is bounded *)

Lemma tanh_bound x : -1 < tanh x < 1.
Proof.
  unfold tanh, sinh, cosh.
  pose proof (exp_pos x) as Ha. pose proof (exp_pos (- x)) as Hb.
  set (a := exp x) in *. set (b := exp (- x)) in *.
  replace ((a - b) / 2 / ((a + b) / 2)) with ((a - b) / (a + b))
    by (field; lra).
  split.
  - apply (Rmult_lt_reg_r (a + b)); [lra|].
    unfold Rdiv. rewrite Rmult_assoc, Rinv_l by lra. lra.
  - apply (Rmult_lt_reg_r (a + b)); [lra|].
    unfold Rdiv. rewrite Rmult_assoc, Rinv_l by lra. lra.
Qed.

Lemma masked_sum_bound (m s : vec) :
  binary m -> Forall (fun x => -1 < x < 1) s ->
  - INR (length m) <= vsum (vmul (one_minus m) s) <= INR (length m).
Proof.
  unfold vmul, one_minus. intros Hm. revert s.
  induction Hm as [|x m Hx Hm IH]; intros s Hs.
  - simpl. lra.
  - destruct Hs as [|y s Hy Hs].
    + cbn [map zipWith vsum fold_right].
      pose proof (pos_INR (length (x :: m))). lra.
    + cbn [map zipWith vsum fold_right length]. rewrite S_INR.
      specialize (IH s Hs). unfold vsum in IH.
      destruct Hx as [Hx|Hx]; subst x; lra.
Qed.

Lemma ldj_row_bound c r :
  Coupling_wf c -> binary (mask c) -> Rabs (ldj_row c r) <= INR (c_in c).
Proof.
  intros Hwf Hb. unfold ldj_row. rewrite <- (proj1 Hwf).
  apply Rabs_le. apply masked_sum_bound; [exact Hb|].
  unfold log_scale_row. rewrite Forall_map. apply Forall_forall.
  intros x _. apply tanh_bound.
Qed.

(** X2: because [log_scale = tanh h] lies strictly between -1 and 1, one
    forward pass through a coupling layer changes each example's [ldj] by at
    most the number of input dimensions, whatever the network outputs. *)
Theorem Coupling_ldj_increment_bounded c z ldj :
  Coupling_wf c -> binary (mask c) -> length ldj = length z ->
  Forall2 (fun new old => Rabs (new - old) <= INR (c_in c))
          (snd (Coupling_forward c z ldj false)) ldj.
Proof.
  intros Hwf Hb Hl. rewrite Coupling_forward_rows. cbn [snd].
  apply (Forall2_zipWith_increment (fun d => Rabs d <= INR (c_in c))).
  - rewrite length_map. exact Hl.
  - rewrite Forall_map. apply Forall_forall. intros r _.
    apply ldj_row_bound; assumption.
Qed.

(** ** The flow accumulates [ldj] additively *)

Lemma forward_steps_additive ls z ldj :
  length ldj = length z ->
  fold_left forward_step ls (z, ldj) =
  (fst (fold_left forward_step ls (z, zeros (length z))),
   zipWith Rplus ldj
     (snd (fold_left forward_step ls (z, zeros (length z))))).
Proof.
  revert z ldj. induction ls as [|l ls IH]; intros z ldj Hl.
  - cbn [fold_left fst snd]. unfold zeros.
    rewrite zipWith_zeros_r by exact Hl. reflexivity.
  - cbn [fold_left]. unfold forward_step at 2 4 6. cbn [fst snd].
    rewrite !Coupling_forward_rows.
    unfold zeros. rewrite !zipWith_zeros_l by apply length_map.
    fold (zeros (length z)).
    rewrite (IH (map (forward_row l) z)
                (zipWith Rplus ldj (map (ldj_row l) z)))
      by (rewrite length_zipWith, !length_map; lia).
    rewrite (IH (map (forward_row l) z) (map (ldj_row l) z))
      by (rewrite !length_map; reflexivity).
    cbn [fst snd]. rewrite zipWith_Rplus_assoc, length_map. reflexivity.
Qed.

(** X3: in the forward direction the [z] the flow returns does not depend on
    the [ldj] it is given, and the [ldj] it returns is the given one plus what
    the flow returns when started from zero. *)
Theorem Flow_ldj_additive f z ldj :
  length ldj = length z ->
  fst (Flow_forward f z ldj false)
    = fst (Flow_forward f z (zeros (length z)) false) /\
  snd (Flow_forward f z ldj false)
    = zipWith Rplus ldj (snd (Flow_forward f z (zeros (length z)) false)).
Proof.
  intro Hl. unfold Flow_forward. simpl negb. cbv iota.
  pose proof (forward_steps_additive (layers f) z ldj Hl) as H.
  split; [exact (f_equal fst H) | exact (f_equal snd H)].
Qed.

(** ** Shapes through the flow *)

Lemma steps_batch_shape D (reverse : bool) ls z ldj :
  Forall (fun c => Coupling_wf c /\ c_in c = D /\ binary (mask c)) ls ->
  batch_shape D z ->
  batch_shape D
    (fst (fold_left
            (fun s layer => Coupling_forward layer (fst s) (snd s) reverse)
            ls (z, ldj))).
Proof.
  intro Hls. revert z ldj.
  induction Hls as [|l ls (Hwf & HD & Hb) Hls IH]; intros z ldj Hz.
  - exact Hz.
  - cbn [fold_left fst snd]. subst D. destruct reverse.
    + rewrite Coupling_reverse_rows. apply IH.
      apply batch_shape_reverse; assumption.
    + rewrite Coupling_forward_rows. apply IH.
      apply batch_shape_forward; assumption.
Qed.

Lemma steps_length (reverse : bool) ls z ldj :
  length ldj = length z ->
  let r := fold_left
             (fun s layer => Coupling_forward layer (fst s) (snd s) reverse)
             ls (z, ldj) in
  length (fst r) = length z /\ length (snd r) = length z.
Proof.
  revert z ldj. induction ls as [|l ls IH]; intros z ldj Hl.
  - cbn. auto.
  - cbn [fold_left fst snd]. destruct reverse.
    + rewrite Coupling_reverse_rows.
      destruct (IH (map (reverse_row l) z) ldj) as (H2 & H3).
      * rewrite length_map. exact Hl.
      * rewrite length_map in H2, H3. auto.
    + rewrite Coupling_forward_rows.
      destruct (IH (map (forward_row l) z)
                   (zipWith Rplus ldj (map (ldj_row l) z))) as (H2 & H3).
      * rewrite length_zipWith, !length_map. lia.
      * rewrite length_map in H2, H3. auto.
Qed.

(** X4: in either direction a well-formed flow returns a batch with as many
    examples as it was given, each still of width D, and an [ldj] with one
    entry per example. *)
Theorem Flow_forward_shape D f z ldj reverse :
  Flow_wf D f -> batch_shape D z -> length ldj = length z ->
  batch_shape D (fst (Flow_forward f z ldj reverse)) /\
  length (fst (Flow_forward f z ldj reverse)) = length z /\
  length (snd (Flow_forward f z ldj reverse)) = length z.
Proof.
  intros Hf Hz Hl. unfold Flow_forward. destruct reverse; simpl negb; cbv iota.
  - split.
    + apply (steps_batch_shape D true); [apply Forall_rev; exact Hf|].
      exact Hz.
    + apply (steps_length true). exact Hl.
  - split.
    + apply (steps_batch_shape D false); assumption.
    + apply (steps_length false). exact Hl.
Qed.

(** ** Inverting the flow *)

Lemma forward_reverse_steps D ls z ldj ldj' :
  Forall (fun c => Coupling_wf c /\ c_in c = D /\ binary (mask c)) ls ->
  batch_shape D z ->
  fst (fold_left forward_step ls
         (fst (fold_left reverse_step (rev ls) (z, ldj)), ldj')) = z.
Proof.
  intro Hls. revert z ldj ldj'.
  induction Hls as [|l ls (Hwf & HD & Hb) Hls IH]; intros z ldj ldj' Hz.
  - reflexivity.
  - cbn [rev]. rewrite fold_left_app. cbn [fold_left].
    unfold reverse_step at 1. rewrite Coupling_reverse_rows. cbn [fst].
    unfold forward_step at 2. cbn [fst snd].
    rewrite Coupling_forward_rows.
    assert (batch_shape D (fst (fold_left reverse_step (rev ls) (z, ldj))))
      as Hs.
    { apply (steps_batch_shape D true (rev ls) z ldj);
        [apply Forall_rev; exact Hls | exact Hz]. }
    rewrite map_map.
    rewrite (map_id_in (fun x => forward_row l (reverse_row l x))).
    + apply IH. exact Hz.
    + eapply Forall_impl; [|exact Hs]. intros r Hr.
      apply forward_reverse_row; congruence.
Qed.

(** X5: running a well-formed flow in reverse and then forward on the result
    returns the original [z]: the forward pass also undoes the reverse pass. *)
Theorem Flow_inverse_then_forward D f z ldj ldj' :
  Flow_wf D f -> batch_shape D z ->
  fst (Flow_forward f (fst (Flow_forward f z ldj true)) ldj' false) = z.
Proof.
  intros Hf Hz. unfold Flow_forward. simpl negb. cbv iota.
  apply (forward_reverse_steps D); assumption.
Qed.

(** X6: a well-formed flow never sends two different batches to the same
    latent batch. *)
Theorem Flow_forward_injective D f z z' ldj ldj' :
  Flow_wf D f -> batch_shape D z -> batch_shape D z' ->
  fst (Flow_forward f z ldj false) = fst (Flow_forward f z' ldj' false) ->
  z = z'.
Proof.
  intros Hf Hz Hz' H. unfold Flow_forward in H. simpl negb in H.
  cbv iota in H.
  rewrite <- (reverse_forward_steps D (layers f) z ldj [] Hf Hz).
  rewrite <- (reverse_forward_steps D (layers f) z' ldj' [] Hf Hz').
  unfold forward_step. rewrite H. reflexivity.
Qed.

(** X7: the flow that [Flow.__init__] builds for 784 channels is the identity
    in both directions before any training: it returns [z] and [ldj] as
    given. *)
Theorem fresh_flow_is_identity n_flows init z ldj reverse :
  batch_shape 784 z -> length ldj = length z ->
  Flow_forward (Flow_init 784 n_flows init) z ldj reverse = (z, ldj).
Proof. intros Hz Hl. apply Flow_init_forward; assumption. Qed.

(** ** Logit normalization and back *)

Lemma sigmoid_logit s : 0 < s < 1 -> sigmoid (ln s - ln (1 - s)) = s.
Proof.
  intros [H0 H1]. unfold sigmoid.
  replace (- (ln s - ln (1 - s))) with (ln (1 - s) + - ln s) by ring.
  rewrite exp_plus, exp_Ropp, !exp_ln by lra. field. lra.
Qed.

Lemma logit_sigmoid y : ln (sigmoid y) - ln (1 - sigmoid y) = y.
Proof.
  unfold sigmoid. pose proof (exp_pos (- y)) as He.
  replace (1 - 1 / (1 + exp (- y))) with (exp (- y) * / (1 + exp (- y)))
    by (field; lra).
  replace (1 / (1 + exp (- y))) with (/ (1 + exp (- y))) by (field; lra).
  assert (0 < / (1 + exp (- y))) by (apply Rinv_0_lt_compat; lra).
  rewrite ln_mult by lra. rewrite ln_exp. lra.
Qed.

Lemma inverse_of_logit_map v :
  0 < shrunk v < 1 -> inverse_logit_closed_form (logit_map v) = v.
Proof.
  intro H. unfold inverse_logit_closed_form, logit_map.
  rewrite (sigmoid_logit _ H). unfold shrunk, alpha. field.
Qed.

Lemma logit_map_of_inverse y :
  logit_map (inverse_logit_closed_form y) = y.
Proof.
  unfold logit_map.
  replace (shrunk (inverse_logit_closed_form y)) with (sigmoid y)
    by (unfold shrunk, inverse_logit_closed_form, alpha; field).
  apply logit_sigmoid.
Qed.

Lemma logit_normalize_reverse_rows y logdet :
  logit_normalize y logdet true =
  (bmap inverse_logit_closed_form y,
   map (fun l => l + ln 256 * INR (width y))
     (zipWith Rplus logdet
        (map (fun r =>
                vsum (map (fun v => ln (sigmoid v) + ln (1 - sigmoid v)) r))
             y))).
Proof.
  pose proof (logit_normalize_reverse_values y logdet) as Hv.
  unfold logit_normalize, inverse_logit_step, multiply_by_256 in *.
  simpl negb in *. cbv iota in *. cbn [fst] in Hv. rewrite Hv.
  rewrite !width_bmap. unfold sum_dim1, bmap. rewrite !map_map.
  f_equal. f_equal. f_equal. apply map_ext. intro r. rewrite map_map.
  reflexivity.
Qed.

Lemma ldj_there_and_back (c : R) (G H : vec -> R) (f : R -> R)
    (z : batch) (P : vec -> Prop) (logdet : list R) :
  (forall r, P r -> H (map f r) = - G r) ->
  Forall P z -> length logdet = length z ->
  map (fun l => l + c)
    (zipWith Rplus
       (zipWith Rplus (map (fun l => l - c) logdet) (map G z))
       (map H (bmap f z)))
  = logdet.
Proof.
  intros HG Hz. revert logdet.
  induction Hz as [|r z Hr Hz IH]; intros [|l logdet] Hl; simpl in *;
    try discriminate; [reflexivity|].
  rewrite IH by lia. rewrite (HG r Hr). f_equal. ring.
Qed.

Lemma ldj_back_and_there (c : R) (G H : vec -> R) (f : R -> R)
    (z : batch) (logdet : list R) :
  (forall r, G (map f r) = - H r) ->
  length logdet = length z ->
  zipWith Rplus
    (map (fun l => l - c)
       (map (fun l => l + c) (zipWith Rplus logdet (map H z))))
    (map G (bmap f z))
  = logdet.
Proof.
  intros HG. revert logdet.
  induction z as [|r z IH]; intros [|l logdet] Hl; simpl in *;
    try discriminate; [reflexivity|].
  rewrite IH by lia. rewrite (HG r). f_equal. ring.
Qed.

Lemma shrunk_of_inverse y :
  shrunk (inverse_logit_closed_form y) = sigmoid y.
Proof. unfold shrunk, inverse_logit_closed_form, alpha. field. Qed.

Lemma vsum_cons (a : R) (v : vec) : vsum (a :: v) = a + vsum v.
Proof. reflexivity. Qed.

Lemma reverse_row_sum_after_forward (r : vec) :
  Forall (fun v => 0 < shrunk v < 1) r ->
  vsum (map (fun v => ln (sigmoid v) + ln (1 - sigmoid v)) (map logit_map r))
  = - vsum (map (fun v => - ln (shrunk v) - ln (1 - shrunk v)) r).
Proof.
  induction 1 as [|v r Hv Hr IH]; [simpl; ring|].
  cbn [map]. rewrite !vsum_cons, IH. unfold logit_map at 1 2.
  rewrite (sigmoid_logit _ Hv). ring.
Qed.

Lemma forward_row_sum_after_reverse (r : vec) :
  vsum (map (fun v => - ln (shrunk v) - ln (1 - shrunk v))
            (map inverse_logit_closed_form r))
  = - vsum (map (fun v => ln (sigmoid v) + ln (1 - sigmoid v)) r).
Proof.
  induction r as [|v r IH]; [simpl; ring|].
  cbn [map]. rewrite !vsum_cons, IH, shrunk_of_inverse. ring.
Qed.

(** X8: forward logit-normalization followed by reverse logit-normalization
    gives back both the input and the [logdet] it started from, as long as
    every shrunk entry lies strictly between 0 and 1 (as it does for
    dequantized pixels) and [logdet] has one entry per example. *)
Theorem logit_normalize_forward_then_reverse z logdet :
  Forall (Forall (fun v => 0 < shrunk v < 1)) z ->
  length logdet = length z ->
  logit_normalize (fst (logit_normalize z logdet false))
                  (snd (logit_normalize z logdet false)) true
  = (z, logdet).
Proof.
  intros Hz Hl. rewrite logit_normalize_forward_rows. cbn [fst snd].
  rewrite logit_normalize_reverse_rows, width_bmap. f_equal.
  - rewrite bmap_bmap. unfold bmap. apply map_id_in.
    eapply Forall_impl; [|exact Hz]. intros r Hr. apply map_id_in.
    eapply Forall_impl; [|exact Hr]. intros v Hv.
    apply inverse_of_logit_map. exact Hv.
  - apply (ldj_there_and_back (ln 256 * INR (width z))
             (fun r => vsum (map (fun v => - ln (shrunk v)
                                           - ln (1 - shrunk v)) r))
             (fun r => vsum (map (fun v => ln (sigmoid v)
                                           + ln (1 - sigmoid v)) r))
             logit_map z (Forall (fun v => 0 < shrunk v < 1)) logdet);
      [|exact Hz | exact Hl].
    intros r Hr. apply reverse_row_sum_after_forward. exact Hr.
Qed.

(** X9: reverse logit-normalization followed by forward logit-normalization
    gives back the latent batch and the [logdet] it started from, for every
    real-valued latent batch. *)
Theorem logit_normalize_reverse_then_forward y logdet :
  length logdet = length y ->
  logit_normalize (fst (logit_normalize y logdet true))
                  (snd (logit_normalize y logdet true)) false
  = (y, logdet).
Proof.
  intro Hl. rewrite logit_normalize_reverse_rows. cbn [fst snd].
  rewrite logit_normalize_forward_rows, width_bmap. f_equal.
  - rewrite bmap_bmap. unfold bmap. apply map_id_in.
    apply Forall_forall. intros r _. apply map_id_in.
    apply Forall_forall. intros v _. apply logit_map_of_inverse.
  - apply (ldj_back_and_there (ln 256 * INR (width y))
             (fun r => vsum (map (fun v => - ln (shrunk v)
                                           - ln (1 - shrunk v)) r))
             (fun r => vsum (map (fun v => ln (sigmoid v)
                                           + ln (1 - sigmoid v)) r))
             inverse_logit_closed_form y logdet); [|exact Hl].
    intro r. apply forward_row_sum_after_reverse.
Qed.

(** X10: the sampling pipeline undoes the encoding pipeline.  Encoding a
    dequantized batch (forward logit-normalization, then the flow forward) and
    decoding the latent (the flow in reverse, then reverse logit-normalization)
    returns the dequantized batch. *)
Theorem decoding_inverts_encoding D m x logdet ldj' :
  Flow_wf D (flow m) -> batch_shape D x ->
  Forall (Forall (fun v => 0 < shrunk v < 1)) x ->
  let p := logit_normalize x logdet false in
  let q := Flow_forward (flow m) (fst p) (snd p) false in
  let r := Flow_forward (flow m) (fst q) ldj' true in
  fst (logit_normalize (fst r) (snd r) true) = x.
Proof.
  intros Hf Hs Hx p q r. subst r q.
  unfold Flow_forward. simpl negb. cbv iota.
  pose proof (reverse_forward_steps D (layers (flow m)) (fst p) (snd p) ldj'
                Hf) as H.
  unfold forward_step, reverse_step in H. rewrite H.
  - subst p. rewrite logit_normalize_forward_rows. cbn [fst].
    rewrite logit_normalize_reverse_values, bmap_bmap.
    unfold bmap. apply map_id_in.
    eapply Forall_impl; [|exact Hx]. intros r Hr. apply map_id_in.
    eapply Forall_impl; [|exact Hr]. intros v Hv.
    apply inverse_of_logit_map. exact Hv.
  - subst p. rewrite logit_normalize_forward_rows. cbn [fst].
    apply bmap_shape. exact Hs.
Qed.

(** ** The checkerboard mask *)

Lemma nth_flat_map_rows {A B : Type} (f : A -> list B) (n : nat)
    (l : list A) (i j : nat) (da : A) (db : B) :
  (forall a, length (f a) = n) ->
  (i < length l)%nat -> (j < n)%nat ->
  nth (n * i + j) (flat_map f l) db = nth j (f (nth i l da)) db.
Proof.
  intros Hf. revert i. induction l as [|a l IH]; intros i Hi Hj.
  - simpl in Hi. lia.
  - cbn [flat_map]. destruct i as [|i].
    + replace (n * 0 + j)%nat with j by lia.
      rewrite app_nth1 by (rewrite Hf; exact Hj). reflexivity.
    + replace (n * S i + j)%nat with (length (f a) + (n * i + j))%nat
        by (rewrite Hf; lia).
      rewrite app_nth2_plus. cbn [nth]. apply IH; [|exact Hj].
      simpl in Hi. lia.
Qed.

(** X11: the mask has 784 entries, and the entry of pixel (i, j), at position
    [28 * i + j] of the flattened image, is 1 when [i + j] is even and 0
    when it is odd. *)
Theorem get_mask_checkerboard i j :
  (i < 28)%nat -> (j < 28)%nat ->
  length get_mask = 784%nat /\
  nth (28 * i + j) get_mask 0 = if ((i + j) mod 2 =? 0)%nat then 1 else 0.
Proof.
  intros Hi Hj. split; [exact length_get_mask|].
  unfold get_mask.
  rewrite (nth_flat_map_rows _ 28 (seq 0 28) i j 0%nat 0);
    [| intro a; rewrite length_map, length_seq; reflexivity
     | rewrite length_seq; exact Hi | exact Hj ].
  rewrite seq_nth by exact Hi. cbn [Nat.add].
  rewrite (nth_indep _ 0
             ((fun j0 => if ((i + j0) mod 2 =? 0)%nat then 1 else 0) 0%nat))
    by (rewrite length_map, length_seq; exact Hj).
  rewrite (map_nth (fun j0 => if ((i + j0) mod 2 =? 0)%nat then 1 else 0)).
  rewrite seq_nth by exact Hj. reflexivity.
Qed.

Lemma vsum_app (a b : vec) : vsum (a ++ b) = vsum a + vsum b.
Proof.
  induction a as [|x a IH]; [simpl; ring|].
  cbn [app]. rewrite !vsum_cons, IH. ring.
Qed.

Lemma mask_row_sum i :
  vsum (map (fun j => if ((i + j) mod 2 =? 0)%nat then 1 else 0) (seq 0 28))
  = 14.
Proof.
  rewrite (map_ext _
             (fun j => if ((i mod 2 + j) mod 2 =? 0)%nat then 1 else 0))
    by (intro j; rewrite Nat.Div0.add_mod_idemp_l; reflexivity).
  pose proof (Nat.mod_upper_bound i 2 ltac:(lia)) as Hb.
  destruct (i mod 2)%nat as [|[|k]]; [| |lia]; unfold vsum; simpl; lra.
Qed.

Lemma vsum_one_minus (m : vec) : vsum (one_minus m) = INR (length m) - vsum m.
Proof.
  unfold one_minus. induction m as [|x m IH]; [simpl; ring|].
  cbn [map length]. rewrite !vsum_cons, IH, S_INR. ring.
Qed.

(** X12: the mask keeps exactly half of the pixels: 392 of its 784 entries
    are 1, and 392 entries of its complement are 1, so each of the two kinds
    of coupling layer transforms 392 dimensions. *)
Theorem get_mask_keeps_half :
  vsum get_mask = 392 /\ vsum (one_minus get_mask) = 392.
Proof.
  assert (vsum get_mask = 392) as H.
  { unfold get_mask.
    assert (forall l : list nat,
              vsum (flat_map
                      (fun i => map (fun j => if ((i + j) mod 2 =? 0)%nat
                                              then 1 else 0) (seq 0 28)) l)
              = 14 * INR (length l)) as Hl.
    { induction l as [|i l IH]; [simpl; ring|].
      cbn [flat_map length]. rewrite vsum_app, IH, mask_row_sum, S_INR.
      ring. }
    rewrite Hl, length_seq, INR_IZR_INZ. cbn [Z.of_nat Pos.of_succ_nat].
    simpl. lra. }
  split; [exact H|].
  rewrite vsum_one_minus, H, length_get_mask, INR_784. lra.
Qed.

Lemma length_flat_map_rows {A B : Type} (f : A -> list B) (n : nat)
    (l : list A) :
  (forall a, length (f a) = n) ->
  length (flat_map f l) = (n * length l)%nat.
Proof.
  intro Hf. induction l as [|a l IH]; cbn [flat_map length]; [lia|].
  rewrite length_app, Hf, IH. lia.
Qed.

(** X13: [Flow.__init__] builds [2 * n_flows] coupling layers on [channels]
    dimensions; layer [2 * i] carries the mask and layer [2 * i + 1] its
    complement.  The flow of a model has 8 layers. *)
Theorem Flow_init_layers channels n_flows init i d :
  (i < n_flows)%nat ->
  let ls := layers (Flow_init channels n_flows init) in
  length ls = (2 * n_flows)%nat /\
  mask (nth (2 * i) ls d) = get_mask /\
  mask (nth (2 * i + 1) ls d) = one_minus get_mask /\
  c_in (nth (2 * i) ls d) = channels /\
  c_in (nth (2 * i + 1) ls d) = channels /\
  length (layers (flow (Model_init channels init))) = 8%nat.
Proof.
  intros Hi ls. subst ls. unfold Model_init, Flow_init. cbn [layers flow].
  split.
  { rewrite (length_flat_map_rows _ 2) by (intro a; reflexivity).
    rewrite length_seq. reflexivity. }
  replace (2 * i)%nat with (2 * i + 0)%nat at 1 3 by lia.
  rewrite !(nth_flat_map_rows _ 2 (seq 0 n_flows) i _ 0%nat d)
    by (try (intro a; reflexivity); try (rewrite length_seq; exact Hi); lia).
  rewrite !seq_nth by exact Hi. cbn [nth mask c_in Coupling_init].
  repeat split; reflexivity.
Qed.

(** ** The prior *)

Lemma log_prior_row_bound (r : vec) :
  vsum (map (fun v => - 0.5 * ln (2 * PI) - 0.5 * v ^ 2) r)
  <= INR (length r) * (- 0.5 * ln (2 * PI)).
Proof.
  induction r as [|v r IH]; [simpl; lra|].
  cbn [map length]. rewrite vsum_cons, S_INR.
  pose proof (pow2_ge_0 v). lra.
Qed.

Lemma ln_2PI_pos : 0 < ln (2 * PI).
Proof.
  rewrite <- ln_1. apply ln_increasing; [lra|].
  pose proof PI2_1. lra.
Qed.

(** X14: the log-prior of an example of width D is at most
    [D * (- 1/2 * ln (2 * PI))], the value at the origin, and so never
    positive; it is the same for [z] and [- z]. *)
Theorem log_prior_bounded_and_even x :
  Forall2 (fun row lp => lp <= INR (length row) * (- 0.5 * ln (2 * PI))
                         /\ lp <= 0)
          x (log_prior x) /\
  log_prior (bmap Ropp x) = log_prior x.
Proof.
  split.
  - unfold log_prior, sum_dim1, bmap. rewrite map_map.
    induction x as [|r x IH]; cbn [map]; constructor; [|exact IH].
    pose proof (log_prior_row_bound r) as Hb.
    pose proof ln_2PI_pos as Hp. pose proof (pos_INR (length r)) as Hn.
    split; [exact Hb|].
    apply (Rle_trans _ _ _ Hb). nra.
  - unfold log_prior. rewrite bmap_bmap. f_equal. apply bmap_ext.
    intro v. ring.
Qed.

(** ** Dequantization *)

Lemma dequantized_row_close (src : nat -> R) (r : vec) start :
  (forall k, 0 <= src k < 1) ->
  Forall2 (fun a b => a <= b <= a + 1) r
          (vadd r (map src (seq start (length r)))).
Proof.
  intro Hsrc. revert start.
  induction r as [|a r IH]; intro start; simpl; constructor.
  - specialize (Hsrc start). lra.
  - apply IH.
Qed.

(** X15: dequantization keeps the shape of the batch and never moves an entry
    down nor up by more than one: each result lies between [a] and [a + 1]
    for the entry [a] it comes from, provided the uniform draws lie in
    [0, 1). *)
Theorem dequantize_stays_within_one x g :
  generator_ok g ->
  Forall2 (Forall2 (fun a b => a <= b <= a + 1)) x (fst (dequantize x g)).
Proof.
  intro Hg. unfold dequantize, bind, ret, rand_like. cbn [fst].
  generalize (cursor g) as start.
  induction x as [|r x IH]; intro start; simpl; constructor.
  - apply dequantized_row_close. exact Hg.
  - apply IH.
Qed.

(** ** What sampling returns *)

(** X16: whatever the parameters of the model and whatever the prior draws,
    every entry [Model.sample] returns lies strictly between
    [- 256 * alpha * 0.5 / (1 - alpha)] and
    [256 * (1 - alpha * 0.5) / (1 - alpha)], hence between -0.002 and
    256.002. *)
Theorem Model_sample_range m n g :
  Forall (Forall (fun v =>
            - 256 * alpha * 0.5 / (1 - alpha) < v
              < 256 * (1 - alpha * 0.5) / (1 - alpha) /\
            - (2 / 1000) < v < 256 + 2 / 1000))
         (fst (Model_sample m n g)).
Proof.
  rewrite Model_sample_steps. cbv zeta. cbn [fst].
  rewrite logit_normalize_reverse_values. apply bmap_Forall.
  apply Forall_forall. intros r _. apply Forall_forall. intros v _.
  pose proof (inverse_logit_closed_form_range v) as H.
  split; [exact H|]. unfold alpha in H. lra.
Qed.

(** X17: for a well-formed flow on [D] dimensions, [Model.sample] returns
    [n_samples] rows of width [D]. *)
Theorem Model_sample_shape D m n g :
  Flow_wf D (flow m) -> z_shape (flow m) = D ->
  length (fst (Model_sample m n g)) = n /\
  batch_shape D (fst (Model_sample m n g)).
Proof.
  intros Hf HD. rewrite Model_sample_steps. cbv zeta. cbn [fst].
  rewrite logit_normalize_reverse_values, HD.
  unfold sample_prior, randn. cbn [fst].
  set (z := draw_like (normal g) (cursor g) (repeat (repeat 0 D) n)).
  assert (batch_shape D z) as Hz by apply draw_like_shape.
  assert (length z = n) as Hn
    by (unfold z; rewrite length_draw_like; apply repeat_length).
  assert (batch_shape D (fst (Flow_forward (flow m) z (zeros (length z)) true))
          /\ length (fst (Flow_forward (flow m) z (zeros (length z)) true))
             = length z) as (H1 & H2).
  { unfold Flow_forward. simpl negb. cbv iota. split.
    - apply (steps_batch_shape D true); [apply Forall_rev; exact Hf|].
      exact Hz.
    - apply (steps_length true). apply repeat_length. }
  split.
  - unfold bmap. rewrite length_map.
    etransitivity; [exact H2 | exact Hn].
  - apply bmap_shape. exact H1.
Qed.

(** ** What density evaluation returns *)

(** X19: for a well-formed flow on [D] dimensions and a batch of rows of
    width [D], [Model.forward] returns exactly one value per example,
    whatever the parameters and the noise; for an empty batch it returns the
    empty tensor. *)
Theorem Model_forward_length D m x g :
  Flow_wf D (flow m) -> batch_shape D x ->
  length (fst (Model_forward m x g)) = length x.
Proof.
  intros _ _.
  rewrite Model_forward_steps. cbv zeta. cbn [fst].
  unfold dequantize, bind, ret, rand_like. cbn [fst].
  set (z0 := badd x (draw_like (uniform g) (cursor g) x)).
  assert (length z0 = length x) as Hl by apply length_badd_draw.
  rewrite logit_normalize_forward_rows. cbn [fst snd].
  unfold Flow_forward. simpl negb. cbv iota.
  match goal with
  | |- context [fold_left ?st ?ls (?a, ?b)] =>
      pose proof (steps_length false ls a b) as H
  end.
  cbv zeta in H. destruct H as (H1 & H2).
  { unfold bmap, zeros.
    rewrite length_zipWith, !length_map, repeat_length.
    unfold batch, vec in *. lia. }
  rewrite length_zipWith. unfold log_prior, sum_dim1, bmap in *.
  rewrite !length_map in *. unfold batch, vec in *. lia.
Qed.

(** ** The flow's log-determinant is bounded *)

Lemma Rabs_le_elim a b : Rabs a <= b -> - b <= a <= b.
Proof.
  intro H. pose proof (Rle_abs a) as H1. pose proof (Rle_abs (- a)) as H2.
  rewrite Rabs_Ropp in H2. lra.
Qed.

Lemma Forall2_chain {A : Type} (P Q S : A -> A -> Prop) (a b c : list A) :
  (forall x y z, P x y -> Q y z -> S x z) ->
  Forall2 P a b -> Forall2 Q b c -> Forall2 S a c.
Proof.
  intros HS Hab. revert c.
  induction Hab as [|x y a b Hxy Hab IH]; intros c Hbc; inversion Hbc; subst;
    constructor; eauto.
Qed.

Lemma Forall2_same (P : R -> R -> Prop) (l : list R) :
  (forall x, P x x) -> Forall2 P l l.
Proof. intro H. induction l; constructor; auto. Qed.

Lemma forward_steps_ldj_bound D ls z ldj :
  Forall (fun c => Coupling_wf c /\ c_in c = D /\ binary (mask c)) ls ->
  length ldj = length z ->
  Forall2 (fun new old => Rabs (new - old) <= INR (length ls) * INR D)
          (snd (fold_left forward_step ls (z, ldj))) ldj.
Proof.
  intro Hls. revert z ldj.
  induction Hls as [|l ls (Hwf & HD & Hb) Hls IH]; intros z ldj Hl.
  - cbn [fold_left snd length]. apply Forall2_same. intro x.
    replace (x - x) with 0 by ring. rewrite Rabs_R0. simpl. lra.
  - cbn [fold_left]. unfold forward_step at 2. cbn [fst snd].
    pose proof (Coupling_forward_rows l z ldj) as Hrows.
    assert (Forall2 (fun new old => Rabs (new - old) <= INR D)
              (snd (Coupling_forward l z ldj false)) ldj) as H1.
    { rewrite Hrows. cbn [snd].
      apply (Forall2_zipWith_increment (fun d => Rabs d <= INR D)).
      - rewrite length_map. exact Hl.
      - rewrite Forall_map. apply Forall_forall. intros r _.
        rewrite <- HD. apply ldj_row_bound; assumption. }
    rewrite Hrows in *. cbn [fst snd] in *.
    eapply Forall2_chain; [| apply IH | exact H1].
    + cbv beta. intros x y w Hxy Hyw.
      apply Rabs_le_elim in Hxy. apply Rabs_le_elim in Hyw.
      cbn [length]. rewrite S_INR. apply Rabs_le. lra.
    + rewrite length_zipWith, !length_map. lia.
Qed.

(** X20: a forward pass through a well-formed flow changes each example's
    [ldj] by at most (number of layers) * D, whatever the parameters. *)
Theorem Flow_ldj_increment_bounded D f z ldj :
  Flow_wf D f -> length ldj = length z ->
  Forall2 (fun new old =>
             Rabs (new - old) <= INR (length (layers f)) * INR D)
          (snd (Flow_forward f z ldj false)) ldj.
Proof.
  intros Hf Hl. unfold Flow_forward. simpl negb. cbv iota.
  exact (forward_steps_ldj_bound D (layers f) z ldj Hf Hl).
Qed.

(** ** When sample grids are saved *)

Lemma NoDup_map_injective {A B : Type} (f : A -> B) (l : list A) :
  (forall x y, f x = f y -> x = y) -> NoDup l -> NoDup (map f l).
Proof.
  intros Hf. induction 1 as [|x l Hx Hl IH]; cbn [map]; constructor;
    [|exact IH].
  intro Hin. apply in_map_iff in Hin. destruct Hin as (y & Hy & Hiny).
  apply Hf in Hy. subst y. contradiction.
Qed.

Lemma in_range n e : In e (range n) <-> (0 <= e < n)%Z.
Proof.
  unfold range. rewrite in_map_iff. split.
  - intros (k & <- & Hk). apply in_seq in Hk. lia.
  - intros He. exists (Z.to_nat e). split; [lia|]. apply in_seq. lia.
Qed.

Lemma NoDup_range n : NoDup (range n).
Proof.
  unfold range. apply NoDup_map_injective; [|apply seq_NoDup].
  intros x y H. lia.
Qed.

(** X21: [main] never saves two sample grids under the same number.  When
    [epochs] is not positive it saves grid 0 only.  When [epochs] is positive
    it saves one grid after the first epoch, one after every epoch [5 * k],
    and one after the last epoch.  Every number it uses lies between 0 and
    [max 0 epochs]. *)
Theorem sample_grids_schedule (epochs : Z) :
  NoDup (plotted_epochs epochs) /\
  ((epochs <= 0)%Z -> plotted_epochs epochs = [0%Z]) /\
  ((0 < epochs)%Z ->
   In 1%Z (plotted_epochs epochs) /\ In epochs (plotted_epochs epochs)) /\
  (forall k, (0 <= k)%Z -> (5 * k < epochs)%Z ->
             In (5 * k + 1)%Z (plotted_epochs epochs)) /\
  (forall n, In n (plotted_epochs epochs) -> (0 <= n <= Z.max 0 epochs)%Z).
Proof.
  unfold plotted_epochs.
  assert (forall e, (0 <= e < epochs)%Z -> plot_condition epochs e = true ->
                    In (e + 1)%Z
                       (0%Z :: map (fun epoch => (epoch + 1)%Z)
                                 (filter (plot_condition epochs)
                                         (range epochs)))) as Hin.
  { intros e He Hc. right.
    apply (in_map (fun epoch => (epoch + 1)%Z)). apply filter_In.
    split; [|exact Hc]. apply in_range. exact He. }
  split; [|split; [|split; [|split]]].
  - constructor.
    + intro H. apply in_map_iff in H. destruct H as (y & Hy & Hiny).
      apply filter_In in Hiny. destruct Hiny as [Hiny _].
      apply in_range in Hiny. lia.
    + apply NoDup_map_injective; [intros x y H; lia|].
      apply NoDup_filter, NoDup_range.
  - intro Hle. unfold range.
    replace (Z.to_nat epochs) with 0%nat by lia. reflexivity.
  - intro Hpos. split.
    + apply (Hin 0%Z); [lia | reflexivity].
    + replace epochs with (epochs - 1 + 1)%Z at 1 by lia.
      apply Hin; [lia|]. unfold plot_condition.
      rewrite Z.eqb_refl. apply orb_true_r.
  - intros k Hk0 Hk. apply Hin; [lia|]. unfold plot_condition.
    rewrite Z.mul_comm, Z_mod_mult. reflexivity.
  - intros n [Hn|Hn]; [lia|].
    apply in_map_iff in Hn. destruct Hn as (e & <- & He).
    apply filter_In in He. destruct He as [He _]. apply in_range in He. lia.
Qed.

(** ** The further properties at concrete inputs *)

Lemma example_pixels_shape : batch_shape 2 example_pixels.
Proof. unfold batch_shape, example_pixels; solve_shape. Defined.

Lemma example_pixels_domain :
  Forall (Forall (fun v => 0 < shrunk v < 1)) example_pixels.
Proof.
  unfold example_pixels. constructor; [|constructor].
  constructor; [|constructor; [|constructor]];
    unfold shrunk, alpha; split; lra.
Defined.

Lemma masked_half_unchanged_witness :
  (Coupling_wf example_coupling /\ binary (mask example_coupling) /\
   batch_shape (c_in example_coupling) example_batch) /\
  row_mul (mask example_coupling)
    (fst (Coupling_forward example_coupling example_batch [0; 0] false))
  = row_mul (mask example_coupling) example_batch.
Proof.
  split.
  - split; [exact example_coupling_wf|].
    split; [exact example_coupling_binary | exact example_batch_shape].
  - apply (masked_half_unchanged example_coupling example_batch [0; 0] false
             example_coupling_wf example_coupling_binary
             example_batch_shape).
Defined.

Lemma Coupling_ldj_increment_bounded_witness :
  (Coupling_wf example_coupling /\ binary (mask example_coupling) /\
   length [0; 0] = length example_batch) /\
  Forall2 (fun new old => Rabs (new - old) <= INR (c_in example_coupling))
    (snd (Coupling_forward example_coupling example_batch [0; 0] false))
    [0; 0].
Proof.
  split.
  - split; [exact example_coupling_wf|].
    split; [exact example_coupling_binary | reflexivity].
  - apply (Coupling_ldj_increment_bounded example_coupling example_batch
             [0; 0] example_coupling_wf example_coupling_binary eq_refl).
Defined.

Lemma Flow_ldj_additive_witness :
  length [1; 2] = length example_batch /\
  snd (Flow_forward example_flow example_batch [1; 2] false)
  = zipWith Rplus [1; 2]
      (snd (Flow_forward example_flow example_batch
              (zeros (length example_batch)) false)).
Proof.
  split; [reflexivity|].
  apply (proj2 (Flow_ldj_additive example_flow example_batch [1; 2]
                  eq_refl)).
Defined.

Lemma Flow_forward_shape_witness :
  (Flow_wf 2 example_flow /\ batch_shape 2 example_batch /\
   length [0; 0] = length example_batch) /\
  batch_shape 2 (fst (Flow_forward example_flow example_batch [0; 0] true)) /\
  length (fst (Flow_forward example_flow example_batch [0; 0] true))
    = length example_batch /\
  length (snd (Flow_forward example_flow example_batch [0; 0] true))
    = length example_batch.
Proof.
  split.
  - split; [exact example_flow_wf|].
    split; [exact example_batch_shape | reflexivity].
  - apply (Flow_forward_shape 2 example_flow example_batch [0; 0] true
             example_flow_wf example_batch_shape eq_refl).
Defined.

Lemma Flow_inverse_then_forward_witness :
  (Flow_wf 2 example_flow /\ batch_shape 2 example_batch) /\
  fst (Flow_forward example_flow
         (fst (Flow_forward example_flow example_batch [0; 0] true))
         [0; 0] false) = example_batch.
Proof.
  split.
  - split; [exact example_flow_wf | exact example_batch_shape].
  - apply (Flow_inverse_then_forward 2 example_flow example_batch
             [0; 0] [0; 0] example_flow_wf example_batch_shape).
Defined.

Lemma Flow_forward_injective_witness :
  (Flow_wf 2 example_flow /\ batch_shape 2 example_batch /\
   fst (Flow_forward example_flow example_batch [0; 0] false)
   = fst (Flow_forward example_flow example_batch [0; 0] false)) /\
  example_batch = example_batch.
Proof.
  split.
  - split; [exact example_flow_wf|].
    split; [exact example_batch_shape | reflexivity].
  - apply (Flow_forward_injective 2 example_flow example_batch example_batch
             [0; 0] [0; 0] example_flow_wf example_batch_shape
             example_batch_shape eq_refl).
Defined.

Lemma fresh_flow_is_identity_witness :
  (batch_shape 784 black_image /\ length [0] = length black_image) /\
  Flow_forward
    (Flow_init 784 4 (fun _ => (nn_0 example_coupling, nn_2 example_coupling)))
    black_image [0] true
  = (black_image, [0]).
Proof.
  assert (batch_shape 784 black_image) as Hs.
  { unfold batch_shape, black_image. constructor; [|constructor].
    apply repeat_length. }
  split.
  - split; [exact Hs | reflexivity].
  - apply (fresh_flow_is_identity 4
             (fun _ => (nn_0 example_coupling, nn_2 example_coupling))
             black_image [0] true Hs eq_refl).
Defined.

Lemma logit_normalize_forward_then_reverse_witness :
  (Forall (Forall (fun v => 0 < shrunk v < 1)) example_pixels /\
   length [0] = length example_pixels) /\
  logit_normalize (fst (logit_normalize example_pixels [0] false))
                  (snd (logit_normalize example_pixels [0] false)) true
  = (example_pixels, [0]).
Proof.
  split.
  - split; [exact example_pixels_domain | reflexivity].
  - apply (logit_normalize_forward_then_reverse example_pixels [0]
             example_pixels_domain eq_refl).
Defined.

Lemma logit_normalize_reverse_then_forward_witness :
  length [0; 0] = length example_batch /\
  logit_normalize (fst (logit_normalize example_batch [0; 0] true))
                  (snd (logit_normalize example_batch [0; 0] true)) false
  = (example_batch, [0; 0]).
Proof.
  split; [reflexivity|].
  apply (logit_normalize_reverse_then_forward example_batch [0; 0] eq_refl).
Defined.

Lemma decoding_inverts_encoding_witness :
  (Flow_wf 2 (flow example_model) /\ batch_shape 2 example_pixels /\
   Forall (Forall (fun v => 0 < shrunk v < 1)) example_pixels) /\
  (let p := logit_normalize example_pixels [0] false in
   let q := Flow_forward (flow example_model) (fst p) (snd p) false in
   let r := Flow_forward (flow example_model) (fst q) [0] true in
   fst (logit_normalize (fst r) (snd r) true) = example_pixels).
Proof.
  split.
  - split; [exact example_flow_wf|].
    split; [exact example_pixels_shape | exact example_pixels_domain].
  - apply (decoding_inverts_encoding 2 example_model example_pixels [0] [0]
             example_flow_wf example_pixels_shape example_pixels_domain).
Defined.

Lemma get_mask_checkerboard_witness :
  ((3 < 28)%nat /\ (4 < 28)%nat) /\
  nth (28 * 3 + 4) get_mask 0 = if ((3 + 4) mod 2 =? 0)%nat then 1 else 0.
Proof.
  split; [split; lia|].
  apply (proj2 (get_mask_checkerboard 3 4 ltac:(lia) ltac:(lia))).
Defined.

Lemma Flow_init_layers_witness :
  (1 < 4)%nat /\
  length (layers (Flow_init 784 4
            (fun _ => (nn_0 example_coupling, nn_2 example_coupling))))
  = (2 * 4)%nat.
Proof.
  split; [lia|].
  apply (proj1 (Flow_init_layers 784 4
                  (fun _ => (nn_0 example_coupling, nn_2 example_coupling))
                  1 example_coupling ltac:(lia))).
Defined.

Lemma dequantize_stays_within_one_witness :
  generator_ok (constant_generator 0 0) /\
  Forall2 (Forall2 (fun a b => a <= b <= a + 1)) example_pixels
          (fst (dequantize example_pixels (constant_generator 0 0))).
Proof.
  split; [exact constant_generator_ok|].
  apply (dequantize_stays_within_one example_pixels (constant_generator 0 0)
           constant_generator_ok).
Defined.

Lemma Model_sample_shape_witness :
  (Flow_wf 2 (flow example_model) /\ z_shape (flow example_model) = 2%nat) /\
  length (fst (Model_sample example_model 3 (constant_generator 0 0))) = 3%nat
  /\ batch_shape 2
       (fst (Model_sample example_model 3 (constant_generator 0 0))).
Proof.
  split.
  - split; [exact example_flow_wf | reflexivity].
  - apply (Model_sample_shape 2 example_model 3 (constant_generator 0 0)
             example_flow_wf eq_refl).
Defined.

Lemma Flow_ldj_increment_bounded_witness :
  (Flow_wf 2 example_flow /\ length [0; 0] = length example_batch) /\
  Forall2 (fun new old =>
             Rabs (new - old) <= INR (length (layers example_flow)) * INR 2)
          (snd (Flow_forward example_flow example_batch [0; 0] false))
          [0; 0].
Proof.
  split.
  - split; [exact example_flow_wf | reflexivity].
  - apply (Flow_ldj_increment_bounded 2 example_flow example_batch [0; 0]
             example_flow_wf eq_refl).
Defined.

Lemma sample_grids_schedule_witness :
  (0 < 40)%Z /\
  In 1%Z (plotted_epochs 40) /\ In 40%Z (plotted_epochs 40).
Proof.
  split; [lia|].
  apply (proj1 (proj2 (proj2 (sample_grids_schedule 40))) ltac:(lia)).
Defined.

Lemma Model_forward_length_witness :
  (Flow_wf 2 (flow example_model) /\ batch_shape 2 example_pixels) /\
  length (fst (Model_forward example_model example_pixels
                 (constant_generator 0 0)))
  = length example_pixels.
Proof.
  split.
  - split; [exact example_flow_wf | exact example_pixels_shape].
  - apply (Model_forward_length 2 example_model example_pixels
             (constant_generator 0 0) example_flow_wf example_pixels_shape).
Defined.
